(** * VisionGuide: output-audio scheduling and route-marker parsing

    A shallow embedding of two pieces of the application:

    - [GeminiLiveService] (src/services/geminiLive.ts): the output audio
      queue, i.e. the fields [nextStartTime] and [audioSources] together with
      [handleMessage], [stopAudioOutput], [connect] and [disconnect];
    - [askForDirections] (services/mapService): the scan of a model answer
      for [MARKER:] lines;
    - [App]: the transcript overlay and [formatTime];
    - [Navigation] (components/Navigation): the search, the summary shown
      and the markers kept for the places.

    JavaScript numbers are IEEE doubles.  Times and coordinates are modelled
    as exact rationals ([Q]); [NaN] and the infinities, where they can
    occur, are separate constructors.  Equality of times is [Qeq] ([==]). *)

From Stdlib Require Import QArith Qminmax Lqa.
From Stdlib Require Import String Ascii NArith.
From Stdlib Require Import DecimalN.
From stdpp Require Import base option list gmap.

Local Open Scope Q_scope.

(** ** Outcomes of calls that may raise *)

Inductive DOMException := InvalidStateError | OtherError.

Inductive result (A : Type) : Type :=
| Ok (a : A)
| Throw (e : DOMException).
Arguments Ok {A} a.
Arguments Throw {A} e.

Definition bind {A B} (r : result A) (k : A -> result B) : result B :=
  match r with
  | Ok a => k a
  | Throw e => Throw e
  end.

(** [try { body } catch (e) { handler }] *)
Definition try_catch {A} (body : result A) (handler : DOMException -> result A)
  : result A :=
  match body with
  | Ok a => Ok a
  | Throw e => handler e
  end.

Notation "x <- c1 ;; c2" := (bind c1 (fun x => c2))
  (at level 100, c1 at next level, right associativity).

(** ** The Web Audio objects the service drives

    These are browser objects, not code of the repository; only what the
    service observes of them is modelled.  A context has a clock and may be
    closed; a buffer has a duration; a source node belongs to the context
    that created it, carries its buffer, the time given to [start] and the
    time of the last effective [stop]. *)

Record AudioBuffer := mkBuffer { duration : Q }.

Record AudioContext := mkContext { currentTime : Q; closed : bool }.

Record AudioBufferSourceNode := mkSource {
  context : nat;
  buffer : AudioBuffer;
  startWhen : Q;
  stopWhen : option Q
}.

(** A decoded segment has a non-negative duration. *)
Definition valid_buffer (b : AudioBuffer) : Prop := 0 <= duration b.

(** A context created by [new AudioContext] starts its clock at 0. *)
Definition new_context : AudioContext := mkContext 0 false.

Definition context_of (ctxs : list AudioContext) (c : nat) : AudioContext :=
  default new_context (ctxs !! c).

(** End of the interval during which a source is audible: the end of its
    buffer, cut by a stop and by the closing of its context (a closed
    context's clock stands still at the closing time). *)
Definition scheduled_end (n : AudioBufferSourceNode) : Q :=
  startWhen n + duration (buffer n).

Definition stopped_end (n : AudioBufferSourceNode) : Q :=
  match stopWhen n with
  | Some t => Qmin (scheduled_end n) t
  | None => scheduled_end n
  end.

Definition playback_end (ctxs : list AudioContext) (n : AudioBufferSourceNode) : Q :=
  let c := context_of ctxs (context n) in
  if closed c then Qmin (stopped_end n) (currentTime c) else stopped_end n.

Definition finished (ctxs : list AudioContext) (n : AudioBufferSourceNode) : bool :=
  Qle_bool (playback_end ctxs n) (currentTime (context_of ctxs (context n))).

(** [source.stop()].  With no argument the source stops at the current time
    of its context.  On a source that already finished the call has no
    effect; engines predating the current Web Audio text raised
    [InvalidStateError] there instead, which [strict_stop] selects. *)
Definition source_stop (strict_stop : bool) (ctxs : list AudioContext)
    (n : AudioBufferSourceNode) : result AudioBufferSourceNode :=
  if finished ctxs n then
    if strict_stop then Throw InvalidStateError else Ok n
  else
    Ok (mkSource (context n) (buffer n) (startWhen n)
          (Some (currentTime (context_of ctxs (context n))))).

(** The source once [stop()] has been attempted on it, whether the call
    returned or raised. *)
Definition after_stop (ctxs : list AudioContext) (n : AudioBufferSourceNode)
  : AudioBufferSourceNode :=
  if finished ctxs n then n
  else mkSource (context n) (buffer n) (startWhen n)
         (Some (currentTime (context_of ctxs (context n)))).

(** [context.close()]: rejects with [InvalidStateError] when the context is
    already closed. *)
Definition context_close (c : AudioContext) : result AudioContext :=
  if closed c then Throw InvalidStateError
  else Ok (mkContext (currentTime c) true).

(** ** GeminiLiveService: the output audio queue *)

Module GeminiLiveService.

(** The two fields of the queue, the reference to the output context, and
    the objects those references point to: [contexts] holds every context
    created so far and [sources] every source node, a reference being the
    index of the object. *)
Record State := mkState {
  nextStartTime : Q;
  audioSources : gset nat;
  outputAudioContext : option nat;
  contexts : list AudioContext;
  sources : list AudioBufferSourceNode
}.

(** Field initialisers of the class. *)
Definition init : State := mkState 0 ∅ None [] [].

(** [this.outputAudioContext.currentTime] *)
Definition clock (s : State) (c : nat) : Q :=
  currentTime (context_of (contexts s) c).

(** The part of a server message the queue looks at: the decoded inline
    audio of the first part, if any, and the [interrupted] flag. *)
Record LiveServerMessage := mkMessage {
  audioData : option AudioBuffer;
  interrupted : bool
}.

(** First block of [handleMessage] (lines 104-122): clamp the cursor to the
    clock, create a source for the decoded buffer, start it at the cursor,
    advance the cursor by the duration, register the source.

    [audioBuffer] is what [base64ToUint8Array] and [decodeAudioData]
    (utils/audioUtils) make of the inline data; a message whose data fails
    to decode is not modelled.  The block is taken as one step: the [await]
    on line 109 resumes before any other handler of the service runs, and
    the clock is read once, on line 106.  Creating and starting a source
    on a closed context does not raise. *)
Definition enqueueAndSchedule (audioBuffer : AudioBuffer) (s : State) : State :=
  match outputAudioContext s with
  | None => s
  | Some c =>
      let startAt := Qmax (nextStartTime s) (clock s c) in
      let source := mkSource c audioBuffer startAt None in
      mkState (startAt + duration audioBuffer)
              ({[ length (sources s) ]} ∪ audioSources s)
              (outputAudioContext s)
              (contexts s)
              (sources s ++ [source])
  end.

(** [try { source.stop(); } catch(e) {}] on the source behind handle [h]. *)
Definition stop_quietly (strict_stop : bool) (ctxs : list AudioContext)
    (h : nat) (srcs : list AudioBufferSourceNode)
  : result (list AudioBufferSourceNode) :=
  match srcs !! h with
  | None => Ok srcs
  | Some n =>
      try_catch
        (n' <- source_stop strict_stop ctxs n ;; Ok (<[h := n']> srcs))
        (fun _ => Ok srcs)
  end.

(** [this.audioSources.forEach(...)] over the handles [hs].  A [Set] is
    visited in insertion order; a stop touches its own source only, so the
    order of the visits makes no difference to the outcome. *)
Fixpoint forEach_stop (strict_stop : bool) (ctxs : list AudioContext)
    (hs : list nat) (srcs : list AudioBufferSourceNode)
  : result (list AudioBufferSourceNode) :=
  match hs with
  | [] => Ok srcs
  | h :: hs' =>
      srcs' <- stop_quietly strict_stop ctxs h srcs ;;
      forEach_stop strict_stop ctxs hs' srcs'
  end.

(** [stopAudioOutput] (lines 138-146). *)
Definition stopAudioOutput (strict_stop : bool) (s : State) : result State :=
  srcs' <- forEach_stop strict_stop (contexts s) (elements (audioSources s)) (sources s) ;;
  Ok (mkState
        (match outputAudioContext s with
         | Some c => clock s c
         | None => nextStartTime s
         end)
        ∅
        (outputAudioContext s)
        (contexts s)
        srcs').

(** [handleMessage] (lines 102-136), without the transcription callbacks. *)
Definition handleMessage (strict_stop : bool) (message : LiveServerMessage)
    (s : State) : result State :=
  let s1 :=
    match audioData message with
    | Some audioBuffer => enqueueAndSchedule audioBuffer s
    | None => s
    end in
  if interrupted message then stopAudioOutput strict_stop s1 else Ok s1.

(** [source.onended = () => this.audioSources.delete(source)] *)
Definition onended (h : nat) (s : State) : State :=
  mkState (nextStartTime s) (audioSources s ∖ {[ h ]}) (outputAudioContext s)
          (contexts s) (sources s).

(** [connect] (lines 30-75), output side: a fresh output context replaces
    the reference held so far. *)
Definition connect (s : State) : State :=
  mkState (nextStartTime s) (audioSources s) (Some (length (contexts s)))
          (contexts s ++ [new_context]) (sources s).

(** [disconnect] (lines 159-189), output side: close the output context if
    there is one, then set the cursor to 0.  A rejected [close] leaves the
    method before the cursor is touched.  (The input context is created and
    closed together with the output context, so its [close] on line 168
    rejects in the same states.) *)
Definition disconnect (s : State) : result State :=
  match outputAudioContext s with
  | None =>
      Ok (mkState 0 (audioSources s) None (contexts s) (sources s))
  | Some c =>
      ctx' <- context_close (context_of (contexts s) c) ;;
      Ok (mkState 0 (audioSources s) (Some c)
                  (<[c := ctx']> (contexts s)) (sources s))
  end.

(** The output device's clock moves on by [dt]; a closed context's clock
    stands still. *)
Definition tick (c : nat) (dt : Q) (s : State) : State :=
  let ctx := context_of (contexts s) c in
  if closed ctx then s
  else mkState (nextStartTime s) (audioSources s) (outputAudioContext s)
               (<[c := mkContext (currentTime ctx + dt) false]> (contexts s))
               (sources s).

(** What can happen to the service: a call of one of its methods, a message
    from the session, the passing of time on a context, the [ended] event of
    a source. *)
Inductive event :=
| Connect
| Message (m : LiveServerMessage)
| Disconnect
| Tick (c : nat) (dt : Q)
| Ended (h : nat).

(** A call that raises leaves the queue as it was. *)
Definition settle_state (s : State) (r : result State) : State :=
  match r with
  | Ok s' => s'
  | Throw _ => s
  end.

Definition apply (strict_stop : bool) (e : event) (s : State) : State :=
  match e with
  | Connect => connect s
  | Message m => settle_state s (handleMessage strict_stop m s)
  | Disconnect => settle_state s (disconnect s)
  | Tick c dt => tick c dt s
  | Ended h => onended h s
  end.

(** Decoded buffers have a duration that is not negative, clocks do not run
    backwards, and [ended] is only dispatched for a source that finished. *)
Definition enabled (s : State) (e : event) : Prop :=
  match e with
  | Message m =>
      match audioData m with
      | Some b => valid_buffer b
      | None => True
      end
  | Tick _ dt => 0 <= dt
  | Ended h =>
      exists n, sources s !! h = Some n /\ finished (contexts s) n = true
  | Connect | Disconnect => True
  end.

(** The operations that reset the cursor: an interruption and the teardown. *)
Definition is_reset (e : event) : bool :=
  match e with
  | Message m => interrupted m
  | Disconnect => true
  | _ => false
  end.

Fixpoint run (strict_stop : bool) (es : list event) (s : State) : State :=
  match es with
  | [] => s
  | e :: es' => run strict_stop es' (apply strict_stop e s)
  end.

Fixpoint admissible (strict_stop : bool) (es : list event) (s : State) : Prop :=
  match es with
  | [] => True
  | e :: es' => enabled s e /\ admissible strict_stop es' (apply strict_stop e s)
  end.

Inductive reachable (strict_stop : bool) : State -> Prop :=
| reachable_init : reachable strict_stop init
| reachable_step s e :
    reachable strict_stop s -> enabled s e ->
    reachable strict_stop (apply strict_stop e s).

(** Segments enqueued one after the other, the clock standing still. *)
Definition enqueueAll (bs : list AudioBuffer) (s : State) : State :=
  fold_left (fun acc b => enqueueAndSchedule b acc) bs s.

(** Start times of the sources created between [s] and [s']. *)
Definition starts_since (s s' : State) : list Q :=
  startWhen <$> drop (length (sources s)) (sources s').

(** Two sources overlap when some instant lies in both playback intervals
    [startWhen, playback_end). *)
Definition overlap (ctxs : list AudioContext) (n m : AudioBufferSourceNode) : Prop :=
  Qmax (startWhen n) (startWhen m) < Qmin (playback_end ctxs n) (playback_end ctxs m).

Definition no_overlap (s : State) : Prop :=
  forall i j n m,
    i <> j ->
    sources s !! i = Some n -> sources s !! j = Some m ->
    context n = context m ->
    ~ overlap (contexts s) n m.

(** [reset()] as the specification words it: [interrupt()], then
    [nextStartTime] set to 0. *)
Definition reset_spec (strict_stop : bool) (s : State) : result State :=
  s' <- stopAudioOutput strict_stop s ;;
  Ok (mkState 0 (audioSources s') (outputAudioContext s') (contexts s')
              (sources s')).

(** Two states with the same queue: cursor, registered handles, sources. *)
Definition same_queue (s1 s2 : State) : Prop :=
  nextStartTime s1 == nextStartTime s2 /\
  audioSources s1 = audioSources s2 /\
  sources s1 = sources s2.

(** *** The timeline invariant *)

(** References point to objects that exist. *)
Definition well_formed (s : State) : Prop :=
  (forall c, outputAudioContext s = Some c -> (c < length (contexts s))%nat) /\
  (forall i n, sources s !! i = Some n -> (context n < length (contexts s))%nat).

(** On one context a source ends before any source created later starts. *)
Definition ordered_timeline (s : State) : Prop :=
  forall i j n m,
    (i < j)%nat ->
    sources s !! i = Some n -> sources s !! j = Some m ->
    context n = context m ->
    playback_end (contexts s) n <= startWhen m.

(** Nothing on the output context plays beyond the cursor or the clock,
    whichever is later. *)
Definition behind_cursor (s : State) : Prop :=
  forall c i n,
    outputAudioContext s = Some c ->
    sources s !! i = Some n -> context n = c ->
    playback_end (contexts s) n <= Qmax (nextStartTime s) (clock s c).

(** A source that is not registered has finished. *)
Definition unregistered_finished (s : State) : Prop :=
  forall i n,
    sources s !! i = Some n -> i ∉ audioSources s ->
    finished (contexts s) n = true.

Definition timeline_invariant (s : State) : Prop :=
  well_formed s /\ ordered_timeline s /\ behind_cursor s /\
  unregistered_finished s.

(** *** Further notions about the queue *)


(** No clock, cursor or start time is negative ([start] raises a
    [RangeError] on a negative time). *)
Definition nonnegative_times (s : State) : Prop :=
  0 <= nextStartTime s /\
  (forall c, 0 <= clock s c) /\
  (forall i n, sources s !! i = Some n -> 0 <= startWhen n).

(** Every registered handle is the handle of a source. *)
Definition handles_registered (s : State) : Prop :=
  forall h, h ∈ audioSources s -> (h < length (sources s))%nat.

End GeminiLiveService.

(** ** JavaScript strings and numbers, as far as [askForDirections] uses them *)

Module JS.

Local Open Scope N_scope.

(** A string is a sequence of UTF-16 code units. *)
Definition jsstring := list N.

Definition js (s : string) : jsstring := N_of_ascii <$> list_ascii_of_string s.

Definition is_digit (c : N) : bool := (48 <=? c) && (c <=? 57).

(** LineTerminator: LF, CR, LS, PS. *)
Definition is_line_terminator (c : N) : bool :=
  (c =? 10) || (c =? 13) || (c =? 8232) || (c =? 8233).

(** WhiteSpace: TAB, VT, FF, SP, NBSP, ZWNBSP and the space separators. *)
Definition is_white_space (c : N) : bool :=
  (c =? 9) || (c =? 11) || (c =? 12) || (c =? 32) || (c =? 160) ||
  (c =? 65279) || (c =? 5760) || ((8192 <=? c) && (c <=? 8202)) ||
  (c =? 8239) || (c =? 8287) || (c =? 12288).

(** The class [\s], also what [trim] and [parseFloat] strip. *)
Definition is_space (c : N) : bool := is_white_space c || is_line_terminator c.

(** The class [.] (no [s] flag). *)
Definition is_dot (c : N) : bool := negb (is_line_terminator c).

(** The class [[\d.-]]. *)
Definition is_coord_char (c : N) : bool := is_digit c || (c =? 46) || (c =? 45).

Fixpoint drop_while (f : N -> bool) (s : jsstring) : jsstring :=
  match s with
  | c :: r => if f c then drop_while f r else s
  | [] => []
  end.

Fixpoint take_while (f : N -> bool) (s : jsstring) : jsstring :=
  match s with
  | c :: r => if f c then c :: take_while f r else []
  | [] => []
  end.

(** [s.trim()] *)
Definition trim (s : jsstring) : jsstring :=
  rev (drop_while is_space (rev (drop_while is_space s))).

(** [s.split(sep)] for a one-unit separator: never empty. *)
Fixpoint split (sep : N) (s : jsstring) : list jsstring :=
  match s with
  | [] => [[]]
  | c :: r =>
      if c =? sep then [] :: split sep r
      else match split sep r with
           | l :: ls => (c :: l) :: ls
           | [] => [[c]]
           end
  end.

Fixpoint strip_prefix (p s : jsstring) : option jsstring :=
  match p, s with
  | [], _ => Some s
  | a :: p', b :: s' => if a =? b then strip_prefix p' s' else None
  | _ :: _, [] => None
  end.

(** Numbers: [NaN], the two infinities, and a number given by its exact
    value.  The engine rounds that value to the nearest double, and to an
    infinity when it lies beyond the doubles; neither makes it [NaN]. *)
Inductive number :=
| NaN
| Infinity (negative : bool)
| Num (q : Q).

Definition isNaN (x : number) : bool :=
  match x with
  | NaN => true
  | _ => false
  end.

Definition digits_value (ds : jsstring) : N :=
  fold_left (fun acc d => 10 * acc + (d - 48)) ds 0.

(** ExponentPart: [e] or [E], an optional sign, at least one digit;
    0 when there is none. *)
Definition exponent_of (s : jsstring) : Z :=
  match s with
  | c :: r =>
      if (c =? 101) || (c =? 69) then
        let '(neg, ds) :=
          match r with
          | d :: r' =>
              if d =? 45 then (true, take_while is_digit r')
              else if d =? 43 then (false, take_while is_digit r')
              else (false, take_while is_digit r)
          | [] => (false, [])
          end in
        match ds with
        | [] => 0%Z
        | _ => if neg then (- Z.of_N (digits_value ds))%Z
               else Z.of_N (digits_value ds)
        end
      else 0%Z
  | [] => 0%Z
  end.

(** [parseFloat(s)]: skip leading white space, read the longest prefix that
    is a StrDecimalLiteral, [NaN] when there is none. *)
Definition parseFloat (s : jsstring) : number :=
  let s1 := drop_while is_space s in
  let '(neg, s2) :=
    match s1 with
    | c :: r =>
        if c =? 45 then (true, r)
        else if c =? 43 then (false, r)
        else (false, s1)
    | [] => (false, s1)
    end in
  match strip_prefix (js "Infinity") s2 with
  | Some _ => Infinity neg
  | None =>
      let ip := take_while is_digit s2 in
      let s3 := drop_while is_digit s2 in
      let '(fp, s4) :=
        match s3 with
        | c :: r =>
            if c =? 46 then (take_while is_digit r, drop_while is_digit r)
            else ([], s3)
        | [] => ([], s3)
        end in
      match ip ++ fp with
      | [] => NaN
      | ds =>
          let m := inject_Z (Z.of_N (digits_value ds)) in
          let e := (exponent_of s4 - Z.of_nat (length fp))%Z in
          let v := (m * Qpower (10 # 1) e)%Q in
          Num (if neg then (- v)%Q else v)
      end
  end.

(** *** Regular expressions of the shape used by the service: a sequence of
    literals and of quantified character classes, a class possibly being a
    capture group.  Matching backtracks as the engine does: a greedy
    quantifier tries the longest run first, a lazy one the shortest. *)

Inductive quantifier := Greedy | Lazy.

Inductive atom :=
| Lit (l : jsstring)
| Rep (cls : N -> bool) (min : nat) (q : quantifier) (capture : bool).

Section Backtracking.
Context {R : Type}.

(** Both take the text consumed so far and hand it on with the rest. *)
Fixpoint greedy (cls : N -> bool) (k : jsstring -> jsstring -> option R)
    (acc s : jsstring) : option R :=
  match s with
  | c :: s' =>
      if cls c then
        match greedy cls k (acc ++ [c]) s' with
        | Some r => Some r
        | None => k acc s
        end
      else k acc s
  | [] => k acc s
  end.

Fixpoint lazy (cls : N -> bool) (k : jsstring -> jsstring -> option R)
    (acc s : jsstring) : option R :=
  match k acc s with
  | Some r => Some r
  | None =>
      match s with
      | c :: s' => if cls c then lazy cls k (acc ++ [c]) s' else None
      | [] => None
      end
  end.

(** The first [min] repetitions are not optional. *)
Fixpoint at_least (cls : N -> bool) (min : nat)
    (k : jsstring -> jsstring -> option R) (acc s : jsstring) : option R :=
  match min with
  | O => k acc s
  | S min' =>
      match s with
      | c :: s' => if cls c then at_least cls min' k (acc ++ [c]) s' else None
      | [] => None
      end
  end.

Definition rep (cls : N -> bool) (min : nat) (q : quantifier)
    (k : jsstring -> jsstring -> option R) (s : jsstring) : option R :=
  at_least cls min
    (match q with
     | Greedy => greedy cls k
     | Lazy => lazy cls k
     end) [] s.
End Backtracking.

(** Match the pattern at the start of [s]; the result is the captures in
    the order of their groups. *)
Fixpoint match_here (p : list atom) (s : jsstring) (caps : list jsstring)
  : option (list jsstring) :=
  match p with
  | [] => Some caps
  | Lit l :: p' =>
      match strip_prefix l s with
      | Some s' => match_here p' s' caps
      | None => None
      end
  | Rep cls min q capture :: p' =>
      rep cls min q
        (fun w s' => match_here p' s' (if capture then caps ++ [w] else caps)) s
  end.

(** [regex.exec(s)] without flags: the first start position that matches. *)
Fixpoint exec (p : list atom) (s : jsstring) : option (list jsstring) :=
  match match_here p s [] with
  | Some caps => Some caps
  | None =>
      match s with
      | _ :: s' => exec p s'
      | [] => None
      end
  end.

(** What it means for a text [w] to match a pattern, with the captures
    [caps], independently of any matching strategy: the text is the
    concatenation of one piece per atom, a literal's piece being the
    literal and a class's piece a run of at least [min] characters of the
    class. *)
Inductive matches : list atom -> jsstring -> list jsstring -> Prop :=
| matches_nil : matches [] [] []
| matches_lit l p w caps :
    matches p w caps -> matches (Lit l :: p) (l ++ w) caps
| matches_rep cls min q capture p r w caps :
    Forall (fun c => cls c = true) r ->
    (min <= length r)%nat ->
    matches p w caps ->
    matches (Rep cls min q capture :: p) (r ++ w)
            (if capture then r :: caps else caps).

(** The text after a run of a class: empty, or starting outside the class. *)
Definition stops_at (cls : N -> bool) (s : jsstring) : Prop :=
  forall c t, s = c :: t -> cls c = false.

(** The pattern occurs somewhere in the line. *)
Definition occurs_in (p : list atom) (line : jsstring) : Prop :=
  exists pre w post caps, line = pre ++ w ++ post /\ matches p w caps.

(** [match[i]] for a capture group, [i >= 1]. *)
Definition group (m : list jsstring) (i : nat) : jsstring :=
  default [] (m !! (i - 1)%nat).

End JS.

(** ** mapService: askForDirections *)

Module MapService.
Import JS.

Record MapPlace := mkPlace {
  title : jsstring;
  lat : number;
  lng : number;
  description : jsstring
}.

Record MapResult := mkResult {
  text : jsstring;
  places : list MapPlace
}.

(** What goes into the prompt, and what comes back from the model:
    [response.text] may be undefined. *)
Record Request := mkRequest {
  req_query : jsstring;
  req_latitude : number;
  req_longitude : number;
  req_instruction : jsstring
}.

Record Response := mkResponse { response_text : option jsstring }.

(** The pattern of line 62, atom by atom: the literal MARKER: , white
    space, group 1 (one or more of any character, lazy), white space, a bar,
    white space, group 2 (one or more of digit, dot, minus), white space, a
    bar, white space, group 3 (as group 2), white space, a bar, white space,
    group 4 (any characters, greedy). *)
Definition markerRegex : list atom :=
  [ Lit (js "MARKER:");
    Rep is_space 0 Greedy false;
    Rep is_dot 1 Lazy true;
    Rep is_space 0 Greedy false;
    Lit (js "|");
    Rep is_space 0 Greedy false;
    Rep is_coord_char 1 Greedy true;
    Rep is_space 0 Greedy false;
    Lit (js "|");
    Rep is_space 0 Greedy false;
    Rep is_coord_char 1 Greedy true;
    Rep is_space 0 Greedy false;
    Lit (js "|");
    Rep is_space 0 Greedy false;
    Rep is_dot 0 Greedy true ].

(** Body of the [for] loop (lines 64-80): one line, the places found so far. *)
Definition scan_line (places : list MapPlace) (line : jsstring) : list MapPlace :=
  match exec markerRegex line with
  | Some m =>
      let lat := parseFloat (group m 2) in
      let lng := parseFloat (group m 3) in
      if negb (isNaN lat) && negb (isNaN lng) then
        places ++ [mkPlace (trim (group m 1)) lat lng (trim (group m 4))]
      else places
  | None => places
  end.

(** A text of the form
    MARKER: name | lat | lng | description
    with the white space the pattern allows around the fields: [name] is
    not empty, [lat] and [lng] are not empty and made of digits, dots and
    minus signs, and no field runs over a line terminator. *)
Definition marker_shape (w name lat lng description : jsstring) : Prop :=
  exists s0 s1 s2 s3 s4 s5 s6 : jsstring,
    w = js "MARKER:" ++ s0 ++ name ++ s1 ++ js "|" ++ s2 ++ lat ++ s3 ++
        js "|" ++ s4 ++ lng ++ s5 ++ js "|" ++ s6 ++ description /\
    Forall (Forall (fun c => is_space c = true)) [s0; s1; s2; s3; s4; s5; s6] /\
    name <> [] /\ Forall (fun c => is_dot c = true) name /\
    lat <> [] /\ Forall (fun c => is_coord_char c = true) lat /\
    lng <> [] /\ Forall (fun c => is_coord_char c = true) lng /\
    Forall (fun c => is_dot c = true) description.

(** A coordinate field starts with a number: after an optional minus
    sign comes a digit, or a dot and then a digit. *)
Definition starts_number (s : jsstring) : bool :=
  let unsigned :=
    match s with
    | c :: r => if (c =? 45)%N then r else s
    | [] => s
    end in
  match unsigned with
  | d :: r =>
      is_digit d ||
      ((d =? 46)%N && match r with
                      | e :: _ => is_digit e
                      | [] => false
                      end)
  | [] => false
  end.

(** What one line contributes: the place built from the groups of its
    match, when it has one and both coordinates are numbers. *)
Definition place_of_line (line : jsstring) : option MapPlace :=
  m ← exec markerRegex line;
  let lat := parseFloat (group m 2) in
  let lng := parseFloat (group m 3) in
  if negb (isNaN lat) && negb (isNaN lng)
  then Some (mkPlace (trim (group m 1)) lat lng (trim (group m 4)))
  else None.

(** Lines 59-80. *)
Definition parsePlaces (text : jsstring) : list MapPlace :=
  fold_left scan_line (split 10 text) [].

Definition fallback : MapResult :=
  mkResult (js "Sorry, I couldn't fetch directions at this moment.") [].

Section WithModel.
(** [ai.models.generateContent]: the remote call, which may fail. *)
Variable generateContent : Request -> result Response.

(** The [try] block (lines 19-82). *)
Definition askForDirections_body (query : jsstring) (latitude longitude : number)
    (isWheelchairAccessible : bool) : result MapResult :=
  let instruction :=
    if isWheelchairAccessible
    then js "Prioritize wheelchair accessible locations with ramps and wide entrances."
    else [] in
  response <- generateContent (mkRequest query latitude longitude instruction) ;;
  (let text :=
     match response_text response with
     | Some (c :: t) => c :: t
     | _ => js "I found some information."
     end in
   Ok (mkResult text (parsePlaces text))).

(** [askForDirections] (lines 17-87). *)
Definition askForDirections (query : jsstring) (latitude longitude : number)
    (isWheelchairAccessible : bool) : result MapResult :=
  try_catch
    (askForDirections_body query latitude longitude isWheelchairAccessible)
    (fun _ => Ok fallback).
End WithModel.

End MapService.

(** ** App: the transcript overlay and the session clock *)

Module App.
Import JS.

Local Open Scope N_scope.

(** An entry of the [transcriptions] state. *)
Record Transcription := mkTranscription {
  transcript_text : jsstring;
  isUser : bool
}.

(** The transcription part of a server message:
    [serverContent?.outputTranscription?.text] and
    [serverContent?.inputTranscription?.text]. *)
Record ServerTranscripts := mkTranscripts {
  outputTranscription : option jsstring;
  inputTranscription : option jsstring
}.

(** Third block of [handleMessage] (geminiLive.ts, lines 129-135): the
    calls of [config.onTranscription] it makes, in order.  An empty text
    is falsy and makes no call. *)
Definition transcription_calls (m : ServerTranscripts) : list Transcription :=
  match outputTranscription m with
  | Some (c :: t) => [mkTranscription (c :: t) false]
  | _ => []
  end ++
  match inputTranscription m with
  | Some (c :: t) => [mkTranscription (c :: t) true]
  | _ => []
  end.

(** [l.slice(-k)]: the last [k] elements, all of them when there are fewer. *)
Definition slice_last {A} (k : nat) (l : list A) : list A :=
  drop (length l - k) l.

(** The updater handed to [setTranscriptions] by [onTranscription]:
    [prev => [...prev.slice(-4), { text, isUser }]]. *)
Definition onTranscription (prev : list Transcription) (t : Transcription)
  : list Transcription :=
  slice_last 4 prev ++ [t].

(** The overlay after the messages [ms] of a session, which
    [startLiveSession] begins with [setTranscriptions([])]. *)
Definition overlay (ms : list ServerTranscripts) : list Transcription :=
  fold_left onTranscription (ms ≫= transcription_calls) [].





End App.

(** ** Navigation: the search and the summary shown *)

Module Navigation.
Import JS MapService.

(** [s.split(sep)[0]] for a non-empty separator: the text before the
    first occurrence of [sep], all of [s] when there is none. *)
Fixpoint split_first (sep s : jsstring) : jsstring :=
  match strip_prefix sep s with
  | Some _ => []
  | None =>
      match s with
      | [] => []
      | c :: r => c :: split_first sep r
      end
  end.

(** The summary paragraph: [result.text.split('MARKER:')[0]]. *)
Definition summary (r : MapResult) : jsstring :=
  split_first (js "MARKER:") (text r).

(** [sep] occurs in [s]. *)
Definition contains (sep s : jsstring) : Prop :=
  exists pre post, s = pre ++ sep ++ post.

(** The state of the component that the search touches ([searchResult] is
    the state variable [result]), and whether the map has been created
    ([mapRef.current]). *)
Record NavState := mkNav {
  query : jsstring;
  searchResult : option MapResult;
  loading : bool;
  isAccessible : bool;
  mapReady : bool;
  userMarker : option (number * number)
}.

(** What [navigator.geolocation.getCurrentPosition] answers. *)
Inductive GeoOutcome :=
| GeoPosition (latitude longitude : number)
| GeoError.

(** [updateUserLocation] (lines 98-116): move the user's marker, or create
    it, when there is a map. *)
Definition updateUserLocation (lat lng : number) (st : NavState) : NavState :=
  if mapReady st
  then mkNav (query st) (searchResult st) (loading st) (isAccessible st)
             (mapReady st) (Some (lat, lng))
  else st.

(** A marker put on the map for a place: where it stands and what its
    popup shows. *)
Record Marker := mkMarker {
  position : number * number;
  popupTitle : jsstring;
  popupText : jsstring
}.

(** [L.marker([place.lat, place.lng]).addTo(map).bindPopup(...)] *)
Definition marker_of (place : MapPlace) : Marker :=
  mkMarker (lat place, lng place) (title place) (description place).

(** The effect that follows a change of [result] (lines 64-96), as far as
    [placeMarkersRef] goes: without a map nothing happens; otherwise the
    old markers are removed and one marker per place is pushed. *)
Definition updateMarkers (mapReady : bool) (result : option MapResult)
    (placeMarkers : list Marker) : list Marker :=
  if mapReady then
    match result with
    | Some r =>
        match places r with
        | [] => []
        | _ :: _ =>
            fold_left (fun markers place => markers ++ [marker_of place])
                      (places r) []
        end
    | None => []
    end
  else placeMarkers.

Section WithModel.
Variable generateContent : Request -> result Response.

(** [handleSearch] (lines 118-135), up to the return of the geolocation
    callback that runs. *)
Definition handleSearch (geo : GeoOutcome) (st : NavState) : result NavState :=
  match trim (query st) with
  | [] => Ok st
  | _ :: _ =>
      let st1 := mkNav (query st) None true (isAccessible st)
                       (mapReady st) (userMarker st) in
      match geo with
      | GeoPosition latitude longitude =>
          let st2 := updateUserLocation latitude longitude st1 in
          data <- askForDirections generateContent (query st) latitude
                    longitude (isAccessible st) ;;
          Ok (mkNav (query st2) (Some data) false (isAccessible st2)
                    (mapReady st2) (userMarker st2))
      | GeoError =>
          Ok (mkNav (query st1) (searchResult st1) false (isAccessible st1)
                    (mapReady st1) (userMarker st1))
      end
  end.
End WithModel.

End Navigation.

(** * Properties of the output audio queue *)

Import GeminiLiveService.

(** ** Arithmetic on times *)

Ltac abstract_minmax f spec a b :=
  let H := fresh "Hspec" in
  let x := fresh "m" in
  let E := fresh "E" in
  pose proof (spec a b) as H;
  remember (f a b) as x eqn:E in *;
  clear E.

(** Replace every [Qmax]/[Qmin] by a variable constrained by its
    specification, then leave the rest to linear arithmetic. *)
Ltac q_minmax :=
  repeat match goal with
  | |- context [Qmax ?a ?b] => abstract_minmax Qmax Q.max_spec a b
  | |- context [Qmin ?a ?b] => abstract_minmax Qmin Q.min_spec a b
  | _ : context [Qmax ?a ?b] |- _ => abstract_minmax Qmax Q.max_spec a b
  | _ : context [Qmin ?a ?b] |- _ => abstract_minmax Qmin Q.min_spec a b
  end;
  lra.

Lemma Qmax_stale (cursor now : Q) : cursor <= now -> Qmax cursor now == now.
Proof. intros. q_minmax. Qed.

Lemma Qmax_backlog (cursor now d : Q) :
  0 <= d -> Qmax (Qmax cursor now + d) now == Qmax cursor now + d.
Proof. intros. q_minmax. Qed.

(** ** Enqueueing *)

Lemma enqueue_connected (b : AudioBuffer) (s : State) (c : nat) :
  outputAudioContext s = Some c ->
  enqueueAndSchedule b s =
    mkState (Qmax (nextStartTime s) (clock s c) + duration b)
            ({[ length (sources s) ]} ∪ audioSources s)
            (Some c) (contexts s)
            (sources s ++ [mkSource c b (Qmax (nextStartTime s) (clock s c)) None]).
Proof. intros Hc. unfold enqueueAndSchedule. rewrite Hc. reflexivity. Qed.

Lemma enqueue_unconnected (b : AudioBuffer) (s : State) :
  outputAudioContext s = None -> enqueueAndSchedule b s = s.
Proof. intros Hc. unfold enqueueAndSchedule. rewrite Hc. reflexivity. Qed.

Lemma enqueue_new_source (b : AudioBuffer) (s : State) (c : nat) :
  outputAudioContext s = Some c ->
  sources (enqueueAndSchedule b s) !! length (sources s) =
    Some (mkSource c b (Qmax (nextStartTime s) (clock s c)) None).
Proof.
  intros Hc. rewrite (enqueue_connected b s c Hc). simpl.
  rewrite lookup_app_r by lia. replace (_ - _)%nat with 0%nat by lia. reflexivity.
Qed.

(** A backlog enqueued on a standing clock: the new sources, in order, and
    the way their start times chain. *)
Lemma enqueueAll_chain (bs : list AudioBuffer) :
  forall (s : State) (c : nat),
    outputAudioContext s = Some c ->
    Forall valid_buffer bs ->
    exists new : list AudioBufferSourceNode,
      sources (enqueueAll bs s) = sources s ++ new /\
      outputAudioContext (enqueueAll bs s) = Some c /\
      contexts (enqueueAll bs s) = contexts s /\
      buffer <$> new = bs /\
      (forall n, new !! 0%nat = Some n ->
                 startWhen n = Qmax (nextStartTime s) (clock s c)) /\
      (forall i n n', new !! i = Some n -> new !! S i = Some n' ->
                      startWhen n' == startWhen n + duration (buffer n)).
Proof.
  induction bs as [|b bs IH]; intros s c Hc Hvalid.
  - exists []. simpl. rewrite app_nil_r. repeat split; try done.
  - apply Forall_cons in Hvalid as [Hb Hbs].
    pose proof (enqueue_connected b s c Hc) as Hstep.
    set (s1 := enqueueAndSchedule b s) in *.
    assert (Hc1 : outputAudioContext s1 = Some c) by (rewrite Hstep; done).
    destruct (IH s1 c Hc1 Hbs) as (new & Hsrc & Hctx & Hctxs & Hbuf & Hfirst & Hchain).
    set (n0 := mkSource c b (Qmax (nextStartTime s) (clock s c)) None).
    exists (n0 :: new).
    change (enqueueAll (b :: bs) s) with (enqueueAll bs s1).
    split; [|split; [|split; [|split; [|split]]]].
    + rewrite Hsrc, Hstep. simpl. rewrite <- app_assoc. reflexivity.
    + exact Hctx.
    + rewrite Hctxs, Hstep. reflexivity.
    + rewrite fmap_cons, Hbuf. reflexivity.
    + intros n [= <-]. reflexivity.
    + intros [|i] n n' Hn Hn'; simpl in Hn, Hn'.
      * injection Hn as <-. rewrite (Hfirst n' Hn').
        rewrite Hstep. unfold clock. simpl.
        apply Qmax_backlog. exact Hb.
      * eapply Hchain; eassumption.
Qed.

(** C1 -- Segments enqueued back to back while the device clock stands
    still are scheduled without gap: every one of them gets a source, and
    the start time of segment i+1 is the start time of segment i plus the
    duration of segment i.  With the clock at 10 and a cursor not ahead of
    it, durations 1, 0.5 and 2 give the start times 10, 11 and 11.5 and
    leave the cursor at 13.5. *)
Theorem C1_backlog_is_gap_free (s : State) (c : nat) (bs : list AudioBuffer) :
  outputAudioContext s = Some c ->
  Forall valid_buffer bs ->
  let starts := starts_since s (enqueueAll bs s) in
  length starts = length bs /\
  (forall i b t t',
      bs !! i = Some b -> starts !! i = Some t -> starts !! S i = Some t' ->
      t' == t + duration b) /\
  (clock s c == 10 -> nextStartTime s <= 10 ->
   let s' := enqueueAll [mkBuffer 1; mkBuffer (1 # 2); mkBuffer 2] s in
   Forall2 Qeq (starts_since s s') [10; 11; 23 # 2] /\
   nextStartTime s' == 27 # 2).
Proof.
  intros Hc Hvalid starts.
  destruct (enqueueAll_chain bs s c Hc Hvalid)
    as (new & Hsrc & _ & _ & Hbuf & _ & Hchain).
  assert (Hstarts : starts = startWhen <$> new).
  { unfold starts, starts_since. rewrite Hsrc, drop_app_length. reflexivity. }
  split; [|split].
  - rewrite Hstarts, length_fmap, <- Hbuf, length_fmap. reflexivity.
  - intros i b t t' Hb Ht Ht'. rewrite Hstarts in Ht, Ht'.
    rewrite list_lookup_fmap in Ht, Ht'.
    destruct (new !! i) as [n|] eqn:Hn; [|discriminate].
    destruct (new !! S i) as [n'|] eqn:Hn'; [|discriminate].
    simpl in Ht, Ht'. injection Ht as <-. injection Ht' as <-.
    assert (buffer n = b) as <-.
    { rewrite <- Hbuf, list_lookup_fmap, Hn in Hb. simpl in Hb. congruence. }
    eapply Hchain; eassumption.
  - intros Hnow Hcur s'. subst s'. unfold enqueueAll, starts_since.
    cbn [fold_left].
    rewrite (enqueue_connected _ s c Hc).
    rewrite (enqueue_connected _ _ c) by reflexivity.
    rewrite (enqueue_connected _ _ c) by reflexivity.
    unfold clock.
    cbn [nextStartTime sources contexts duration].
    fold (clock s c).
    rewrite <- !app_assoc, drop_app_length.
    cbn [fmap list_fmap app startWhen].
    split.
    + repeat constructor; q_minmax.
    + q_minmax.
Qed.

(** The scenario of C1 on the state reached by connecting and letting ten
    seconds pass. *)
Lemma C1_backlog_is_gap_free_witness :
  let s := tick 0 10 (connect init) in
  let bs := [mkBuffer 1; mkBuffer (1 # 2); mkBuffer 2] in
  Forall2 Qeq (starts_since s (enqueueAll bs s)) [10; 11; 23 # 2] /\
  nextStartTime (enqueueAll bs s) == 27 # 2.
Proof.
  intros s bs.
  assert (Hvalid : Forall valid_buffer bs).
  { repeat constructor; unfold valid_buffer; simpl; lra. }
  refine (proj2 (proj2 (C1_backlog_is_gap_free s 0%nat bs eq_refl Hvalid)) _ _).
  - vm_compute. reflexivity.
  - vm_compute. discriminate.
Defined.

(** C2 -- When the device clock has run past the cursor, the segment
    enqueued next starts at the clock's value at the call and not at the
    stale cursor.  A segment of duration 1 started at 10, the clock then
    reading 12: the second segment starts at 12, not at 11. *)
Theorem C2_stale_cursor_restarts_at_now (s : State) (c : nat) (b : AudioBuffer) :
  outputAudioContext s = Some c ->
  nextStartTime s <= clock s c ->
  (exists n,
      sources (enqueueAndSchedule b s) !! length (sources s) = Some n /\
      startWhen n == clock s c) /\
  (let s0 := tick 0 10 (connect init) in
   let s1 := enqueueAndSchedule (mkBuffer 1) s0 in
   let s2 := tick 0 2 s1 in
   let s3 := enqueueAndSchedule b s2 in
   clock s0 0 == 10 /\ nextStartTime s1 == 11 /\ clock s2 0 == 12 /\
   exists t1 t2,
     starts_since s0 s3 = [t1; t2] /\ t1 == 10 /\ t2 == 12 /\ ~ t2 == 11).
Proof.
  intros Hc Hstale. split.
  - eexists. split; [apply (enqueue_new_source b s c Hc)|].
    simpl. apply Qmax_stale. exact Hstale.
  - cbv zeta. split; [reflexivity|]. split; [reflexivity|]. split; [reflexivity|].
    eexists _, _. split; [reflexivity|].
    repeat split; vm_compute; congruence.
Qed.

Lemma C2_stale_cursor_restarts_at_now_witness :
  let s := tick 0 2 (enqueueAndSchedule (mkBuffer 1) (tick 0 10 (connect init))) in
  exists n,
    sources (enqueueAndSchedule (mkBuffer 3) s) !! length (sources s) = Some n /\
    startWhen n == 12.
Proof.
  intros s.
  refine (proj1 (C2_stale_cursor_restarts_at_now s 0%nat (mkBuffer 3) eq_refl _)).
  vm_compute. discriminate.
Defined.

(** ** Stopping sources *)

Lemma finished_iff (ctxs : list AudioContext) (n : AudioBufferSourceNode) :
  finished ctxs n = true <->
  playback_end ctxs n <= currentTime (context_of ctxs (context n)).
Proof. unfold finished. apply Qle_bool_iff. Qed.

Lemma playback_end_le_scheduled (ctxs : list AudioContext) (n : AudioBufferSourceNode) :
  playback_end ctxs n <= scheduled_end n.
Proof.
  unfold playback_end, stopped_end.
  destruct (closed _), (stopWhen n); q_minmax.
Qed.

Lemma after_stop_context ctxs n : context (after_stop ctxs n) = context n.
Proof. unfold after_stop. destruct (finished ctxs n); reflexivity. Qed.

Lemma after_stop_startWhen ctxs n : startWhen (after_stop ctxs n) = startWhen n.
Proof. unfold after_stop. destruct (finished ctxs n); reflexivity. Qed.

Lemma after_stop_finished ctxs n : finished ctxs (after_stop ctxs n) = true.
Proof.
  unfold after_stop. destruct (finished ctxs n) eqn:Hfin; [exact Hfin|].
  apply finished_iff. unfold playback_end, stopped_end, scheduled_end. simpl.
  destruct (closed _); q_minmax.
Qed.

Lemma after_stop_id ctxs n : finished ctxs n = true -> after_stop ctxs n = n.
Proof. intros H. unfold after_stop. rewrite H. reflexivity. Qed.

Lemma after_stop_idem ctxs n :
  after_stop ctxs (after_stop ctxs n) = after_stop ctxs n.
Proof. apply after_stop_id, after_stop_finished. Qed.

(** A stop only ever shortens the playback interval. *)
Lemma after_stop_end_le ctxs n :
  playback_end ctxs (after_stop ctxs n) <= playback_end ctxs n.
Proof.
  unfold after_stop. destruct (finished ctxs n) eqn:Hfin; [lra|].
  assert (Hrun : ~ playback_end ctxs n <= currentTime (context_of ctxs (context n))).
  { rewrite <- finished_iff, Hfin. discriminate. }
  revert Hrun. unfold playback_end, stopped_end, scheduled_end. simpl.
  destruct (closed _), (stopWhen n); intros; q_minmax.
Qed.

Lemma alter_as_insert {A} (f : A -> A) (l : list A) (i : nat) (x : A) :
  l !! i = Some x -> alter f i l = <[i := f x]> l.
Proof.
  intros Hx. apply list_eq. intros j.
  rewrite list_lookup_alter, list_lookup_insert.
  apply lookup_lt_Some in Hx as Hlt.
  repeat case_decide; subst; try rewrite Hx; try reflexivity; tauto.
Qed.

(** The guarded call never raises: whatever [stop] does, the list of
    sources afterwards is the old one with [after_stop] at [h]. *)
Lemma stop_quietly_alter strict_stop ctxs h (srcs : list AudioBufferSourceNode) :
  stop_quietly strict_stop ctxs h srcs = Ok (alter (after_stop ctxs) h srcs).
Proof.
  unfold stop_quietly. destruct (srcs !! h) as [n|] eqn:Hn.
  - rewrite (alter_as_insert _ _ _ _ Hn).
    unfold source_stop, after_stop.
    destruct (finished ctxs n); [|reflexivity].
    destruct strict_stop; simpl; rewrite ?(list_insert_id _ _ _ Hn); reflexivity.
  - f_equal. apply list_eq. intros j. rewrite list_lookup_alter.
    case_decide; subst; [rewrite Hn|]; reflexivity.
Qed.

Lemma forEach_stop_fold strict_stop ctxs (hs : list nat) :
  forall srcs : list AudioBufferSourceNode,
    forEach_stop strict_stop ctxs hs srcs =
      Ok (foldl (fun acc h => alter (after_stop ctxs) h acc) srcs hs).
Proof.
  induction hs as [|h hs IH]; intros srcs; [reflexivity|].
  simpl. rewrite stop_quietly_alter. simpl. apply IH.
Qed.

Lemma stop_all_lookup ctxs (hs : list nat) :
  forall (srcs : list AudioBufferSourceNode) (j : nat),
    foldl (fun acc h => alter (after_stop ctxs) h acc) srcs hs !! j =
      if decide (j ∈ hs) then after_stop ctxs <$> srcs !! j else srcs !! j.
Proof.
  induction hs as [|h hs IH]; intros srcs j.
  - destruct (decide (j ∈ [])) as [Hin|_]; [|reflexivity].
    apply not_elem_of_nil in Hin. contradiction.
  - cbn [foldl]. rewrite IH, list_lookup_alter.
    destruct (decide (h = j)) as [->|Hne].
    + rewrite (decide_True (P := j ∈ j :: hs)) by left.
      case_decide; [|reflexivity].
      destruct (srcs !! j); simpl; [|reflexivity].
      rewrite after_stop_idem. reflexivity.
    + destruct (decide (j ∈ hs)) as [Hin|Hout].
      * rewrite decide_True by (right; exact Hin). reflexivity.
      * rewrite decide_False; [reflexivity|].
        intros [->|?]%elem_of_cons; tauto.
Qed.

(** [stopAudioOutput] always returns; it stops exactly the registered
    sources, empties the set and moves the cursor to the clock. *)
Lemma stopAudioOutput_returns strict_stop (s : State) :
  exists srcs',
    stopAudioOutput strict_stop s =
      Ok (mkState (match outputAudioContext s with
                   | Some c => clock s c
                   | None => nextStartTime s
                   end) ∅ (outputAudioContext s) (contexts s) srcs') /\
    forall j,
      srcs' !! j =
        if decide (j ∈ audioSources s)
        then after_stop (contexts s) <$> sources s !! j
        else sources s !! j.
Proof.
  unfold stopAudioOutput. rewrite forEach_stop_fold. simpl.
  eexists. split; [reflexivity|].
  intros j. rewrite stop_all_lookup.
  destruct (decide (j ∈ audioSources s)) as [Hin|Hout].
  - rewrite decide_True by (apply elem_of_elements; exact Hin). reflexivity.
  - rewrite decide_False; [reflexivity|]. rewrite elem_of_elements. exact Hout.
Qed.

(** ** The clock *)

Lemma tick_keeps_queue (c : nat) (dt : Q) (s : State) :
  nextStartTime (tick c dt s) = nextStartTime s /\
  audioSources (tick c dt s) = audioSources s /\
  outputAudioContext (tick c dt s) = outputAudioContext s /\
  sources (tick c dt s) = sources s.
Proof. unfold tick. destruct (closed _); repeat split. Qed.

Lemma tick_clock (c : nat) (dt : Q) (s : State) :
  clock (tick c dt s) c = clock s c \/
  clock (tick c dt s) c = clock s c + dt.
Proof.
  unfold tick, clock, context_of.
  destruct (contexts s !! c) as [ctx|] eqn:Hctx; simpl.
  - destruct (closed ctx); [left; simpl; rewrite Hctx; reflexivity|].
    right. simpl. rewrite list_lookup_insert_eq by (eapply lookup_lt_Some; eauto).
    reflexivity.
  - left. simpl. rewrite list_insert_ge by (apply lookup_ge_None; exact Hctx).
    rewrite Hctx. reflexivity.
Qed.

(** Without an output context there is no clock to move the cursor to: the
    interruption still returns and empties the set, the cursor stays. *)
Lemma interrupt_without_context (strict_stop : bool) (s : State) :
  outputAudioContext s = None ->
  exists s',
    stopAudioOutput strict_stop s = Ok s' /\
    audioSources s' = ∅ /\ nextStartTime s' = nextStartTime s.
Proof.
  intros Hc. destruct (stopAudioOutput_returns strict_stop s) as (srcs' & Hret & _).
  rewrite Hc in Hret. eexists. split; [exact Hret|]. split; reflexivity.
Qed.

(** C3 -- After an interruption, on a service that has an output context:
    the call returned, every source that was registered is finished (it
    plays nothing after the current instant), the set is empty, the cursor
    is the clock's value, and a segment enqueued afterwards, however long
    the clock ran meanwhile, starts at the clock's value at that call:
    nothing of the cursor from before the interruption is left in it. *)
Theorem C3_interrupt_clears_and_resyncs (strict_stop : bool) (s : State) (c : nat) :
  outputAudioContext s = Some c ->
  exists s',
    stopAudioOutput strict_stop s = Ok s' /\
    (forall h n,
        h ∈ audioSources s -> sources s !! h = Some n ->
        exists n', sources s' !! h = Some n' /\ finished (contexts s') n' = true) /\
    audioSources s' = ∅ /\
    nextStartTime s' = clock s c /\
    clock s' c = clock s c /\
    (forall (dt : Q) (b : AudioBuffer),
        0 <= dt ->
        let s2 := tick c dt s' in
        exists n,
          sources (enqueueAndSchedule b s2) !! length (sources s2) = Some n /\
          startWhen n == clock s2 c).
Proof.
  intros Hc.
  destruct (stopAudioOutput_returns strict_stop s) as (srcs' & Hret & Hlook).
  rewrite Hc in Hret.
  eexists. split; [exact Hret|]. simpl.
  split; [|split; [reflexivity|split; [reflexivity|split; [reflexivity|]]]].
  - intros h n Hin Hn. exists (after_stop (contexts s) n). split.
    + rewrite Hlook, decide_True, Hn by exact Hin. reflexivity.
    + apply after_stop_finished.
  - intros dt b Hdt.
    set (s1 := mkState (clock s c) ∅ (Some c) (contexts s) srcs').
    set (s2 := tick c dt s1).
    destruct (tick_keeps_queue c dt s1) as (Hcur & _ & Hctx & _).
    fold s2 in Hcur, Hctx. simpl in Hcur, Hctx.
    eexists. split; [apply (enqueue_new_source b s2 c Hctx)|].
    simpl. rewrite Hcur. apply Qmax_stale.
    destruct (tick_clock c dt s1) as [H|H];
      fold s2 in H; rewrite H; unfold clock; simpl; lra.
Qed.

(** An interruption in the middle of the first of two segments. *)
Lemma C3_interrupt_clears_and_resyncs_witness :
  let s := tick 0 (1 # 2)
             (enqueueAll [mkBuffer 1; mkBuffer 2] (tick 0 10 (connect init))) in
  exists s',
    stopAudioOutput true s = Ok s' /\
    audioSources s' = ∅ /\
    nextStartTime s' = clock s 0.
Proof.
  intros s.
  destruct (C3_interrupt_clears_and_resyncs true s 0%nat eq_refl)
    as (s' & Hret & _ & Hset & Hcur & _).
  exists s'. repeat split; assumption.
Defined.

(** C8 -- Stopping a source whose playback is over.  [stop()] itself, as
    the Web Audio text has it, returns and leaves the source as it is; the
    guarded call of line 140 returns and changes no source at all, also on
    an engine whose [stop()] raises there; and an interruption on a state
    that still holds such a handle in the set returns exactly what it
    returns when the handle has already been taken out by its [ended]
    event, so the other sources fare as if the finished one had not been
    there, and the finished one is as it was. *)
Theorem C8_stop_on_finished_source (strict_stop : bool) (s : State)
    (h : nat) (n : AudioBufferSourceNode) :
  sources s !! h = Some n ->
  finished (contexts s) n = true ->
  source_stop false (contexts s) n = Ok n /\
  stop_quietly strict_stop (contexts s) h (sources s) = Ok (sources s) /\
  (exists s',
      stopAudioOutput strict_stop s = Ok s' /\
      sources s' !! h = Some n /\
      stopAudioOutput strict_stop (onended h s) = Ok s').
Proof.
  intros Hn Hfin. split; [|split].
  - unfold source_stop. rewrite Hfin. reflexivity.
  - rewrite stop_quietly_alter, (alter_as_insert _ _ _ _ Hn).
    rewrite (after_stop_id _ _ Hfin), (list_insert_id _ _ _ Hn). reflexivity.
  - destruct (stopAudioOutput_returns strict_stop s) as (srcs1 & Hret1 & Hlook1).
    destruct (stopAudioOutput_returns strict_stop (onended h s))
      as (srcs2 & Hret2 & Hlook2).
    eexists. split; [exact Hret1|]. simpl. split.
    + rewrite Hlook1, Hn. simpl. rewrite (after_stop_id _ _ Hfin).
      case_decide; reflexivity.
    + rewrite Hret2. simpl. do 2 f_equal.
      apply list_eq. intros j. rewrite Hlook1, Hlook2. simpl.
      destruct (decide (j = h)) as [->|Hne].
      * rewrite Hn. simpl. rewrite (after_stop_id _ _ Hfin).
        repeat case_decide; reflexivity.
      * destruct (decide (j ∈ audioSources s)) as [Hin|Hout].
        -- rewrite decide_True; [reflexivity|].
           apply elem_of_difference. split; [exact Hin|].
           rewrite elem_of_singleton. exact Hne.
        -- rewrite decide_False; [reflexivity|].
           intros [Hin _]%elem_of_difference. contradiction.
Qed.

(** A source of one second started at 10, the clock at 12: it is over. *)
Lemma C8_stop_on_finished_source_witness :
  let s := tick 0 2 (enqueueAndSchedule (mkBuffer 1) (tick 0 10 (connect init))) in
  stop_quietly true (contexts s) 0 (sources s) = Ok (sources s) /\
  stopAudioOutput true s = stopAudioOutput true (onended 0 s).
Proof.
  intros s.
  destruct (C8_stop_on_finished_source true s 0%nat
              (mkSource 0 (mkBuffer 1) 10 None) eq_refl eq_refl)
    as (_ & Hdirect & s' & Hvia & _ & Hended).
  split; [exact Hdirect|]. rewrite Hvia, Hended. reflexivity.
Defined.

(** ** Teardown *)

Lemma disconnect_open (s : State) :
  (forall c, outputAudioContext s = Some c ->
             closed (context_of (contexts s) c) = false) ->
  disconnect s =
    Ok (mkState 0 (audioSources s) (outputAudioContext s)
          (match outputAudioContext s with
           | Some c =>
               <[c := mkContext (clock s c) true]> (contexts s)
           | None => contexts s
           end)
          (sources s)).
Proof.
  intros Hopen. unfold disconnect, context_close, clock.
  destruct (outputAudioContext s) as [c|]; [|reflexivity].
  rewrite (Hopen c eq_refl). reflexivity.
Qed.

Lemma disconnect_closed (s : State) (c : nat) :
  outputAudioContext s = Some c ->
  closed (context_of (contexts s) c) = true ->
  disconnect s = Throw InvalidStateError.
Proof.
  intros Hc Hclosed. unfold disconnect, context_close.
  rewrite Hc, Hclosed. reflexivity.
Qed.

(** C4, as stated, fails: with one source registered, the teardown leaves
    the handle in the set, whereas an interruption followed by zeroing the
    cursor leaves the set empty. *)
Lemma C4_teardown_keeps_active_set :
  let s := enqueueAndSchedule (mkBuffer 1) (tick 0 10 (connect init)) in
  exists s1 s2,
    disconnect s = Ok s1 /\ reset_spec false s = Ok s2 /\
    audioSources s1 = {[ 0%nat ]} /\ audioSources s2 = ∅ /\
    ~ same_queue s1 s2.
Proof.
  intros s.
  destruct (stopAudioOutput_returns false s) as (srcs' & Hret & _).
  eexists _, _. split; [reflexivity|].
  unfold reset_spec. rewrite Hret. simpl.
  split; [reflexivity|]. split; [apply (right_id_L ∅ (∪))|].
  split; [reflexivity|].
  intros (_ & Hset & _). simpl in Hset.
  assert (H0 : 0%nat ∈ (∅ : gset nat)).
  { rewrite <- Hset. apply elem_of_union_l, elem_of_singleton. reflexivity. }
  exact (not_elem_of_empty _ H0).
Qed.

(** C4 (amended) -- On a service whose output context is absent or still
    open, [disconnect] returns with the cursor at 0 and the context closed;
    it stops no source and leaves the set of registered handles as it was.
    It agrees with "interrupt, then cursor := 0" on the cursor, and on the
    whole queue exactly when no handle was registered. *)
Theorem C4_teardown_zeroes_cursor_only (s : State) :
  (forall c, outputAudioContext s = Some c ->
             closed (context_of (contexts s) c) = false) ->
  exists s',
    disconnect s = Ok s' /\
    nextStartTime s' = 0 /\
    audioSources s' = audioSources s /\
    sources s' = sources s /\
    (forall c, outputAudioContext s = Some c -> (c < length (contexts s))%nat ->
               closed (context_of (contexts s') c) = true /\
               clock s' c = clock s c) /\
    (forall strict_stop s2,
        reset_spec strict_stop s = Ok s2 ->
        nextStartTime s2 = nextStartTime s' /\
        audioSources s2 = ∅ /\
        (same_queue s' s2 <-> audioSources s = ∅)).
Proof.
  intros Hopen. rewrite (disconnect_open s Hopen).
  eexists. split; [reflexivity|]. simpl.
  split; [reflexivity|]. split; [reflexivity|]. split; [reflexivity|]. split.
  - intros c Hc Hlt. rewrite Hc. unfold clock, context_of. simpl.
    rewrite list_lookup_insert_eq by exact Hlt. split; reflexivity.
  - intros strict_stop s2 Hreset. unfold reset_spec in Hreset.
    destruct (stopAudioOutput_returns strict_stop s) as (srcs' & Hret & Hlook).
    rewrite Hret in Hreset. simpl in Hreset. injection Hreset as <-. simpl.
    split; [reflexivity|]. split; [reflexivity|].
    unfold same_queue. simpl. split.
    + intros (_ & Hset & _). exact Hset.
    + intros Hempty. split; [reflexivity|]. split; [exact Hempty|].
      apply list_eq. intros j. rewrite Hlook, Hempty.
      rewrite decide_False by apply not_elem_of_empty. reflexivity.
Qed.

(** The teardown of a session with one segment pending. *)
Lemma C4_teardown_zeroes_cursor_only_witness :
  let s := enqueueAndSchedule (mkBuffer 1) (tick 0 10 (connect init)) in
  exists s',
    disconnect s = Ok s' /\ nextStartTime s' = 0 /\
    audioSources s' = audioSources s /\ sources s' = sources s.
Proof.
  intros s.
  assert (Hopen : forall c, outputAudioContext s = Some c ->
                            closed (context_of (contexts s) c) = false).
  { intros c [= <-]. reflexivity. }
  destruct (C4_teardown_zeroes_cursor_only s Hopen)
    as (s' & Hd & Hcur & Hset & Hsrc & _).
  exists s'. repeat split; assumption.
Defined.

(** C5, as stated, fails: after the teardown of a connected service a
    segment is still enqueued; the cursor moves from 0 to 11 and a handle
    enters the set. *)
Lemma C5_enqueue_after_teardown_mutates :
  let s := tick 0 10 (connect init) in
  exists s_d,
    disconnect s = Ok s_d /\
    nextStartTime s_d = 0 /\ audioSources s_d = ∅ /\
    let s' := enqueueAndSchedule (mkBuffer 1) s_d in
    handleMessage false (mkMessage (Some (mkBuffer 1)) false) s_d = Ok s' /\
    nextStartTime s' == 11 /\
    0%nat ∈ audioSources s' /\
    s' <> s_d.
Proof.
  intros s. eexists. split; [reflexivity|].
  split; [reflexivity|]. split; [reflexivity|].
  cbv zeta. split; [reflexivity|]. split; [reflexivity|]. split.
  - apply elem_of_union_l, elem_of_singleton. reflexivity.
  - intros Heq. apply (f_equal nextStartTime) in Heq. vm_compute in Heq.
    discriminate.
Qed.

(** C5 (amended) -- A segment that arrives after [disconnect] raises no
    error.  It is ignored only when the service never had an output
    context.  Otherwise the closed context is still referenced: the cursor
    becomes the stopped clock (or 0 if larger) plus the duration, a new
    handle is registered, and the new source, living on a closed context,
    has an empty playback interval. *)
Theorem C5_enqueue_after_teardown (strict_stop : bool) (s s_d : State)
    (b : AudioBuffer) :
  disconnect s = Ok s_d ->
  handleMessage strict_stop (mkMessage (Some b) false) s_d =
    Ok (enqueueAndSchedule b s_d) /\
  match outputAudioContext s with
  | None => enqueueAndSchedule b s_d = s_d
  | Some c =>
      let s' := enqueueAndSchedule b s_d in
      nextStartTime s' == Qmax 0 (clock s c) + duration b /\
      audioSources s' = {[ length (sources s) ]} ∪ audioSources s /\
      s' <> s_d /\
      ((c < length (contexts s))%nat ->
       exists n,
         sources s' !! length (sources s) = Some n /\
         playback_end (contexts s') n <= startWhen n)
  end.
Proof.
  intros Hd. split; [reflexivity|].
  unfold disconnect in Hd.
  destruct (outputAudioContext s) as [c|] eqn:Hc.
  - unfold context_close in Hd.
    destruct (closed (context_of (contexts s) c)) eqn:Hclosed; [discriminate|].
    simpl in Hd. injection Hd as <-.
    rewrite (enqueue_connected b _ c) by reflexivity.
    cbn [nextStartTime audioSources sources contexts].
    assert (Hclock : (c < length (contexts s))%nat \/ (length (contexts s) <= c)%nat)
      by lia.
    assert (Hsame : clock (mkState 0 (audioSources s) (Some c)
                      (<[c := mkContext (currentTime (context_of (contexts s) c)) true]>
                         (contexts s)) (sources s)) c = clock s c).
    { unfold clock, context_of. simpl. destruct Hclock as [Hlt|Hge].
      - rewrite list_lookup_insert_eq by exact Hlt. reflexivity.
      - rewrite list_insert_ge by exact Hge. reflexivity. }
    rewrite Hsame. split; [reflexivity|]. split; [reflexivity|]. split.
    { intros Heq. apply (f_equal (fun x => length (sources x))) in Heq.
      simpl in Heq. rewrite length_app in Heq. simpl in Heq. lia. }
    intros Hlt. eexists. split.
    + rewrite lookup_app_r by lia. replace (_ - _)%nat with 0%nat by lia.
      reflexivity.
    + unfold playback_end, stopped_end, scheduled_end, context_of. simpl.
      rewrite list_lookup_insert_eq by exact Hlt. simpl.
      fold (context_of (contexts s) c). fold (clock s c). q_minmax.
  - injection Hd as <-. apply enqueue_unconnected. reflexivity.
Qed.

(** Teardown of a connected session, then a late segment of one second. *)
Lemma C5_enqueue_after_teardown_witness :
  let s := tick 0 10 (connect init) in
  let s_d := mkState 0 ∅ (Some 0%nat) [mkContext 10 true] [] in
  let s' := enqueueAndSchedule (mkBuffer 1) s_d in
  nextStartTime s' == Qmax 0 (clock s 0) + 1 /\
  audioSources s' = {[ 0%nat ]} ∪ ∅.
Proof.
  intros s s_d s'.
  destruct (C5_enqueue_after_teardown true s s_d (mkBuffer 1) eq_refl)
    as (_ & Hcur & Hset & _ & _).
  split; [exact Hcur | exact Hset].
Defined.

(** ** The cursor along a run *)

Lemma enqueue_cursor_le (b : AudioBuffer) (s : State) :
  valid_buffer b -> nextStartTime s <= nextStartTime (enqueueAndSchedule b s).
Proof.
  intros Hb. unfold valid_buffer in Hb. unfold enqueueAndSchedule.
  destruct (outputAudioContext s); simpl; [q_minmax | lra].
Qed.

Lemma apply_cursor_le (strict_stop : bool) (e : event) (s : State) :
  enabled s e -> is_reset e = false ->
  nextStartTime s <= nextStartTime (apply strict_stop e s).
Proof.
  destruct e as [|m| |c dt|h]; simpl; intros Hen Hreset; try discriminate.
  - lra.
  - unfold handleMessage. rewrite Hreset. simpl.
    destruct (audioData m); [apply enqueue_cursor_le; exact Hen | lra].
  - destruct (tick_keeps_queue c dt s) as (-> & _). lra.
  - lra.
Qed.

Lemma run_snoc (strict_stop : bool) (es : list event) :
  forall (e : event) (s : State),
    run strict_stop (es ++ [e]) s = apply strict_stop e (run strict_stop es s).
Proof. induction es as [|e0 es IH]; intros e s; simpl; [reflexivity | apply IH]. Qed.

Lemma admissible_at (strict_stop : bool) (es : list event) :
  forall (s : State) (i : nat) (e : event),
    admissible strict_stop es s -> es !! i = Some e ->
    enabled (run strict_stop (take i es) s) e.
Proof.
  induction es as [|e0 es IH]; intros s i e Hadm Hi; [discriminate|].
  destruct Hadm as [Hen Hadm]. destruct i as [|i]; simpl in *.
  - injection Hi as <-. exact Hen.
  - eapply IH; eassumption.
Qed.

(** C6 -- Along any sequence of operations the cursor never decreases
    across an operation that is neither an interruption nor the teardown:
    the state before the i-th operation has a cursor not above that of the
    state after it. *)
Theorem C6_cursor_monotone_except_resets (strict_stop : bool)
    (es : list event) (s : State) (i : nat) (e : event) :
  admissible strict_stop es s ->
  es !! i = Some e ->
  is_reset e = false ->
  nextStartTime (run strict_stop (take i es) s) <=
  nextStartTime (run strict_stop (take (S i) es) s).
Proof.
  intros Hadm Hi Hreset.
  rewrite (take_S_r es i e Hi), run_snoc.
  apply apply_cursor_le; [|exact Hreset].
  eapply admissible_at; eassumption.
Qed.

(** A run with an interruption in it; the step looked at is the enqueue
    that follows the interruption. *)
Lemma C6_cursor_monotone_except_resets_witness :
  let es := [Connect; Tick 0 10; Message (mkMessage (Some (mkBuffer 1)) false);
             Message (mkMessage None true);
             Message (mkMessage (Some (mkBuffer 2)) false)] in
  nextStartTime (run false (take 4 es) init) <=
  nextStartTime (run false (take 5 es) init).
Proof.
  intros es.
  apply (C6_cursor_monotone_except_resets false es init 4%nat
           (Message (mkMessage (Some (mkBuffer 2)) false))).
  - simpl. unfold valid_buffer. simpl. repeat split; lra.
  - reflexivity.
  - reflexivity.
Defined.

(** ** The timeline invariant holds in every reachable state *)

Ltac unfold_invariant :=
  unfold timeline_invariant, well_formed, ordered_timeline, behind_cursor,
    unregistered_finished in *.

Ltac fields :=
  cbn [nextStartTime audioSources outputAudioContext contexts sources
       context buffer startWhen stopWhen duration currentTime closed] in *.

Lemma playback_end_ext (ctxs ctxs' : list AudioContext) (n : AudioBufferSourceNode) :
  context_of ctxs' (context n) = context_of ctxs (context n) ->
  playback_end ctxs' n = playback_end ctxs n /\
  finished ctxs' n = finished ctxs n.
Proof.
  intros H. unfold finished, playback_end. rewrite H. split; reflexivity.
Qed.

Lemma context_of_app_l (ctxs extra : list AudioContext) (k : nat) :
  (k < length ctxs)%nat -> context_of (ctxs ++ extra) k = context_of ctxs k.
Proof. intros Hk. unfold context_of. rewrite lookup_app_l by exact Hk. reflexivity. Qed.

Lemma init_invariant : timeline_invariant init.
Proof.
  repeat split; unfold init; simpl; intros; discriminate.
Qed.

Lemma connect_invariant (s : State) :
  timeline_invariant s -> timeline_invariant (connect s).
Proof.
  intros ((Hwc & Hwn) & Hord & Hcur & Hfin).
  assert (Hext : forall i n, sources s !! i = Some n ->
            playback_end (contexts s ++ [new_context]) n = playback_end (contexts s) n /\
            finished (contexts s ++ [new_context]) n = finished (contexts s) n).
  { intros i n Hn. apply playback_end_ext, context_of_app_l. eapply Hwn, Hn. }
  unfold_invariant. unfold connect. fields. repeat split.
  - intros c [= <-]. rewrite length_app. simpl. lia.
  - intros i n Hn. rewrite length_app. specialize (Hwn i n Hn). lia.
  - intros i j n m Hij Hn Hm Hctx.
    rewrite (proj1 (Hext i n Hn)). eapply Hord; eassumption.
  - intros c i n [= <-] Hn Hctx. specialize (Hwn i n Hn). simpl in Hwn. lia.
  - intros i n Hn Hout. rewrite (proj2 (Hext i n Hn)). eapply Hfin; eassumption.
Qed.

Lemma enqueue_invariant (b : AudioBuffer) (s : State) :
  valid_buffer b -> timeline_invariant s ->
  timeline_invariant (enqueueAndSchedule b s).
Proof.
  intros Hb Hinv.
  destruct (outputAudioContext s) as [c|] eqn:Hc;
    [|rewrite enqueue_unconnected by exact Hc; exact Hinv].
  destruct Hinv as ((Hwc & Hwn) & Hord & Hcur & Hfin).
  rewrite (enqueue_connected b s c Hc). unfold valid_buffer in Hb.
  set (start := Qmax (nextStartTime s) (clock s c)).
  unfold_invariant. fields. repeat split.
  - intros c' [= <-]. apply Hwc, Hc.
  - intros i n [[_ Hn]|[_ <-]]%lookup_snoc_Some; [eapply Hwn, Hn|].
    simpl. apply Hwc, Hc.
  - intros i j n m Hij [[Hi Hn]|[-> <-]]%lookup_snoc_Some
      [[Hj Hm]|[-> <-]]%lookup_snoc_Some Hctx; simpl in *.
    + exact (Hord i j n m Hij Hn Hm Hctx).
    + exact (Hcur c i n Hc Hn Hctx).
    + lia.
    + lia.
  - intros c' i n [= <-] [[Hi Hn]|[-> <-]]%lookup_snoc_Some Hctx.
    + specialize (Hcur c i n Hc Hn Hctx). fold start in Hcur.
      unfold clock in *. simpl. q_minmax.
    + pose proof (playback_end_le_scheduled (contexts s)
                    (mkSource c b start None)) as Hle.
      unfold scheduled_end in Hle. simpl in Hle.
      unfold clock in *. simpl. q_minmax.
  - intros i n [[Hi Hn]|[-> <-]]%lookup_snoc_Some Hout.
    + eapply Hfin; [exact Hn|]. intros Hin. apply Hout.
      apply elem_of_union_r. exact Hin.
    + exfalso. apply Hout. apply elem_of_union_l, elem_of_singleton. reflexivity.
Qed.

Lemma interrupt_invariant (strict_stop : bool) (s s' : State) :
  stopAudioOutput strict_stop s = Ok s' ->
  timeline_invariant s -> timeline_invariant s'.
Proof.
  intros Hstop ((Hwc & Hwn) & Hord & Hcur & Hfin).
  destruct (stopAudioOutput_returns strict_stop s) as (srcs' & Hret & Hlook).
  rewrite Hret in Hstop. injection Hstop as <-.
  (* every source afterwards is an old one, possibly stopped *)
  assert (Hold : forall i n', srcs' !! i = Some n' ->
            exists n, sources s !! i = Some n /\
              context n' = context n /\ startWhen n' = startWhen n /\
              playback_end (contexts s) n' <= playback_end (contexts s) n /\
              finished (contexts s) n' = true).
  { intros i n' Hn'. rewrite Hlook in Hn'.
    destruct (decide (i ∈ audioSources s)) as [Hin|Hout].
    - destruct (sources s !! i) as [n|] eqn:Hn; [|discriminate].
      simpl in Hn'. injection Hn' as <-. exists n.
      split; [reflexivity|]. split; [apply after_stop_context|].
      split; [apply after_stop_startWhen|].
      split; [apply after_stop_end_le | apply after_stop_finished].
    - exists n'. split; [exact Hn'|]. repeat split; try reflexivity; [lra|].
      eapply Hfin; eassumption. }
  unfold_invariant. fields. repeat split.
  - exact Hwc.
  - intros i n' Hn'. destruct (Hold i n' Hn') as (n & Hn & -> & _).
    eapply Hwn, Hn.
  - intros i j n' m' Hij Hn' Hm' Hctx.
    destruct (Hold i n' Hn') as (n & Hn & Hcn & _ & Hle & _).
    destruct (Hold j m' Hm') as (m & Hm & Hcm & -> & _).
    assert (playback_end (contexts s) n <= startWhen m)
      by (eapply Hord; eauto; congruence).
    lra.
  - intros c i n' Hc Hn' Hctx.
    destruct (Hold i n' Hn') as (n & _ & _ & _ & _ & Hdone).
    apply finished_iff in Hdone. rewrite Hctx in Hdone.
    rewrite Hc. unfold clock in *. simpl. q_minmax.
  - intros i n' Hn' _.
    destruct (Hold i n' Hn') as (n & _ & _ & _ & _ & Hdone). exact Hdone.
Qed.

Lemma disconnect_invariant (s s' : State) :
  disconnect s = Ok s' -> timeline_invariant s -> timeline_invariant s'.
Proof.
  intros Hd ((Hwc & Hwn) & Hord & Hcur & Hfin).
  unfold disconnect in Hd.
  destruct (outputAudioContext s) as [c|] eqn:Hc.
  - unfold context_close in Hd.
    destruct (closed (context_of (contexts s) c)) eqn:Hopen; [discriminate|].
    simpl in Hd. injection Hd as <-.
    set (t := currentTime (context_of (contexts s) c)).
    set (ctxs' := <[c := mkContext t true]> (contexts s)).
    assert (Hlt : (c < length (contexts s))%nat) by (apply Hwc; reflexivity).
    assert (Hc' : context_of ctxs' c = mkContext t true).
    { unfold context_of, ctxs'. rewrite list_lookup_insert_eq by exact Hlt.
      reflexivity. }
    assert (Hother : forall k, k <> c -> context_of ctxs' k = context_of (contexts s) k).
    { intros k Hk. unfold context_of, ctxs'.
      rewrite list_lookup_insert_ne by congruence. reflexivity. }
    assert (Hnode : forall n,
              playback_end ctxs' n <= playback_end (contexts s) n /\
              (finished (contexts s) n = true -> finished ctxs' n = true) /\
              (context n = c -> playback_end ctxs' n <= t /\ finished ctxs' n = true)).
    { intros n. destruct (decide (context n = c)) as [Hn|Hn].
      - assert (Hend : playback_end ctxs' n = Qmin (stopped_end n) t).
        { unfold playback_end. rewrite Hn, Hc'. reflexivity. }
        assert (Hold : playback_end (contexts s) n = stopped_end n).
        { unfold playback_end. rewrite Hn, Hopen. reflexivity. }
        assert (Hdone : finished ctxs' n = true).
        { apply finished_iff. rewrite Hend, Hn, Hc'. simpl. q_minmax. }
        rewrite Hend, Hold. repeat split; auto; q_minmax.
      - destruct (playback_end_ext (contexts s) ctxs' n (Hother _ Hn)) as [-> ->].
        repeat split; [lra|auto|contradiction|contradiction]. }
    unfold_invariant. fields. fold ctxs'. repeat split.
    + intros c' [= <-]. unfold ctxs'. rewrite length_insert. exact Hlt.
    + intros i n Hn. unfold ctxs'. rewrite length_insert. eapply Hwn, Hn.
    + intros i j n m Hij Hn Hm Hctx.
      pose proof (Hord i j n m Hij Hn Hm Hctx).
      pose proof (proj1 (Hnode n)). lra.
    + intros c' i n [= <-] Hn Hctx.
      destruct (proj2 (proj2 (Hnode n)) Hctx) as [Hle _].
      unfold clock. fields. rewrite Hc'. simpl. q_minmax.
    + intros i n Hn Hout. apply (proj1 (proj2 (Hnode n))).
      eapply Hfin; eassumption.
  - injection Hd as <-. unfold_invariant. fields. repeat split; auto.
    intros; discriminate.
Qed.

Lemma context_of_insert (ctxs : list AudioContext) (c k : nat) (x : AudioContext) :
  context_of (<[c := x]> ctxs) k =
    if decide (c = k /\ (c < length ctxs)%nat) then x else context_of ctxs k.
Proof. unfold context_of. rewrite list_lookup_insert. case_decide; reflexivity. Qed.

Lemma tick_context_of (c : nat) (dt : Q) (s : State) (k : nat) :
  0 <= dt ->
  closed (context_of (contexts (tick c dt s)) k) = closed (context_of (contexts s) k) /\
  currentTime (context_of (contexts s) k) <=
    currentTime (context_of (contexts (tick c dt s)) k) /\
  (closed (context_of (contexts s) k) = true ->
   context_of (contexts (tick c dt s)) k = context_of (contexts s) k).
Proof.
  intros Hdt. unfold tick.
  destruct (closed (context_of (contexts s) c)) eqn:Hopen;
    [repeat split; auto; lra|].
  fields. rewrite context_of_insert.
  destruct (decide (c = k /\ (c < length (contexts s))%nat)) as [[<- Hlt]|Hk].
  - fields. rewrite Hopen. repeat split; [lra|discriminate].
  - repeat split; auto; lra.
Qed.

Lemma tick_invariant (c : nat) (dt : Q) (s : State) :
  0 <= dt -> timeline_invariant s -> timeline_invariant (tick c dt s).
Proof.
  intros Hdt ((Hwc & Hwn) & Hord & Hcur & Hfin).
  destruct (tick_keeps_queue c dt s) as (Hq1 & Hq2 & Hq3 & Hq4).
  assert (Hlen : length (contexts (tick c dt s)) = length (contexts s)).
  { unfold tick. destruct (closed _); [reflexivity|]. fields.
    apply length_insert. }
  assert (Hnode : forall n,
            playback_end (contexts (tick c dt s)) n = playback_end (contexts s) n /\
            (finished (contexts s) n = true ->
             finished (contexts (tick c dt s)) n = true)).
  { intros n.
    destruct (tick_context_of c dt s (context n) Hdt) as (Hcl & Hle & Hsame).
    assert (Hend : playback_end (contexts (tick c dt s)) n =
                   playback_end (contexts s) n).
    { unfold playback_end. rewrite Hcl.
      destruct (closed (context_of (contexts s) (context n))) eqn:E;
        [rewrite (Hsame eq_refl)|]; reflexivity. }
    split; [exact Hend|].
    rewrite !finished_iff, Hend. lra. }
  unfold_invariant. rewrite Hq1, Hq2, Hq3, Hq4, Hlen. repeat split; auto.
  - intros i j n m Hij Hn Hm Hctx. rewrite (proj1 (Hnode n)).
    exact (Hord i j n m Hij Hn Hm Hctx).
  - intros c' i n Hc' Hn Hctx. rewrite (proj1 (Hnode n)).
    pose proof (Hcur c' i n Hc' Hn Hctx).
    destruct (tick_context_of c dt s c' Hdt) as (_ & Hle & _).
    unfold clock in *. q_minmax.
  - intros i n Hn Hout. apply (Hnode n). eapply Hfin; eassumption.
Qed.

Lemma onended_invariant (h : nat) (s : State) :
  enabled s (Ended h) -> timeline_invariant s -> timeline_invariant (onended h s).
Proof.
  intros (n0 & Hn0 & Hdone) ((Hwc & Hwn) & Hord & Hcur & Hfin).
  unfold_invariant. unfold onended, clock in *. fields. repeat split; auto.
  intros i n Hn Hout. destruct (decide (i = h)) as [->|Hne].
  - congruence.
  - eapply Hfin; [exact Hn|]. intros Hin. apply Hout.
    apply elem_of_difference. split; [exact Hin|].
    rewrite elem_of_singleton. exact Hne.
Qed.

Lemma apply_invariant (strict_stop : bool) (e : event) (s : State) :
  enabled s e -> timeline_invariant s ->
  timeline_invariant (apply strict_stop e s).
Proof.
  intros Hen Hinv. destruct e as [|m| |c dt|h]; simpl.
  - apply connect_invariant, Hinv.
  - unfold handleMessage. simpl in Hen.
    assert (Hinv1 : timeline_invariant
              match audioData m with
              | Some audioBuffer => enqueueAndSchedule audioBuffer s
              | None => s
              end).
    { destruct (audioData m); [apply enqueue_invariant; assumption | exact Hinv]. }
    destruct (interrupted m); [|exact Hinv1].
    destruct (stopAudioOutput strict_stop _) as [s'|err] eqn:Hstop; simpl.
    + eapply interrupt_invariant; eassumption.
    + exact Hinv.
  - destruct (disconnect s) as [s'|err] eqn:Hd; simpl.
    + eapply disconnect_invariant; eassumption.
    + exact Hinv.
  - apply tick_invariant; assumption.
  - apply onended_invariant; assumption.
Qed.

Lemma reachable_invariant (strict_stop : bool) (s : State) :
  reachable strict_stop s -> timeline_invariant s.
Proof.
  induction 1 as [|s e Hreach IH Hen].
  - apply init_invariant.
  - apply apply_invariant; assumption.
Qed.

Lemma ordered_no_overlap (s : State) : ordered_timeline s -> no_overlap s.
Proof.
  intros Hord i j n m Hne Hn Hm Hctx. unfold overlap.
  destruct (Nat.lt_total i j) as [Hlt|[Heq|Hgt]]; [|contradiction|].
  - pose proof (Hord i j n m Hlt Hn Hm Hctx). q_minmax.
  - pose proof (Hord j i m n Hgt Hm Hn (eq_sym Hctx)). q_minmax.
Qed.

Lemma run_reachable (strict_stop : bool) (es : list event) :
  forall s : State,
    reachable strict_stop s -> admissible strict_stop es s ->
    reachable strict_stop (run strict_stop es s).
Proof.
  induction es as [|e es IH]; intros s Hreach Hadm; [exact Hreach|].
  destruct Hadm as [Hen Hadm]. simpl. apply IH; [|exact Hadm].
  apply reachable_step; assumption.
Qed.

(** Each context has a clock of its own, which starts at 0, so intervals
    are compared on one context only: after a teardown and a new
    connection, a source of the new context may carry the same times as
    one of the old context. *)
Lemma sources_of_two_contexts_share_times :
  let s := run false [Connect; Message (mkMessage (Some (mkBuffer 1)) false);
                      Disconnect; Connect;
                      Message (mkMessage (Some (mkBuffer 1)) false)] init in
  reachable false s /\
  sources s = [mkSource 0 (mkBuffer 1) 0 None; mkSource 1 (mkBuffer 1) 0 None].
Proof.
  intros s. split; [|reflexivity].
  apply run_reachable; [apply reachable_init|].
  simpl. unfold valid_buffer. simpl. repeat split; lra.
Qed.

(** C7, as stated, fails in its second half: once a segment of one second
    started at 10 has played and the clock reads 12, the cursor still reads
    11; it is only brought up to the clock by the next enqueue. *)
Lemma C7_cursor_lags_behind_clock :
  let s := run false [Connect; Tick 0 10;
                      Message (mkMessage (Some (mkBuffer 1)) false);
                      Tick 0 2] init in
  reachable false s /\
  outputAudioContext s = Some 0%nat /\
  nextStartTime s == 11 /\ clock s 0 == 12 /\
  ~ clock s 0 <= nextStartTime s.
Proof.
  intros s. split.
  - apply run_reachable; [apply reachable_init|].
    simpl. unfold valid_buffer. simpl. repeat split; lra.
  - split; [reflexivity|]. split; [reflexivity|]. split; [reflexivity|].
    vm_compute. intros H. apply H. reflexivity.
Qed.

(** C7 (amended) -- In every reachable state no two sources of one output
    context have overlapping playback intervals, and no source of the
    current output context plays beyond the later of cursor and clock.
    The cursor is at or ahead of the clock right after a segment has been
    enqueued, and equal to it right after an interruption; between calls
    the clock may run past it. *)
Theorem C7_single_timeline (strict_stop : bool) (s : State) :
  reachable strict_stop s ->
  no_overlap s /\
  (forall c i n,
      outputAudioContext s = Some c -> sources s !! i = Some n ->
      context n = c ->
      playback_end (contexts s) n <= Qmax (nextStartTime s) (clock s c)) /\
  (forall c b,
      outputAudioContext s = Some c -> valid_buffer b ->
      let s' := enqueueAndSchedule b s in
      clock s' c <= nextStartTime s') /\
  (forall c s',
      outputAudioContext s = Some c ->
      stopAudioOutput strict_stop s = Ok s' ->
      nextStartTime s' = clock s' c).
Proof.
  intros Hreach.
  destruct (reachable_invariant strict_stop s Hreach) as (_ & Hord & Hcur & _).
  split; [apply ordered_no_overlap, Hord|]. split; [exact Hcur|]. split.
  - intros c b Hc Hb s'. subst s'. unfold valid_buffer in Hb.
    rewrite (enqueue_connected b s c Hc). unfold clock. fields.
    fold (clock s c). q_minmax.
  - intros c s' Hc Hstop.
    destruct (stopAudioOutput_returns strict_stop s) as (srcs' & Hret & _).
    rewrite Hret, Hc in Hstop. injection Hstop as <-. reflexivity.
Qed.

(** Two segments back to back, an interruption half a second into the
    first, and a third segment right after it. *)
Lemma C7_single_timeline_witness :
  no_overlap
    (run true [Connect; Tick 0 10;
               Message (mkMessage (Some (mkBuffer 1)) false);
               Message (mkMessage (Some (mkBuffer 2)) false);
               Tick 0 (1 # 2);
               Message (mkMessage (Some (mkBuffer 3)) true)] init).
Proof.
  refine (proj1 (C7_single_timeline true _ _)).
  apply run_reachable; [apply reachable_init|].
  simpl. unfold valid_buffer. simpl. repeat split; lra.
Defined.

(** * Properties of the marker scan *)

Import JS MapService.

(** ** The backtracking matcher against the declarative pattern *)

Section MatcherLemmas.
Context {R : Type}.
Implicit Types (cls : N -> bool) (k : jsstring -> jsstring -> option R).

Local Ltac piece :=
  rewrite ?app_nil_r in *; rewrite <- ?app_assoc in *; simpl;
  repeat split; try assumption; try reflexivity;
  try (constructor; assumption).

Lemma greedy_sound cls k (s : jsstring) :
  forall acc x,
    greedy cls k acc s = Some x ->
    exists r s', s = r ++ s' /\ Forall (fun c => cls c = true) r /\
                 k (acc ++ r) s' = Some x.
Proof.
  induction s as [|c s IH]; intros acc x H; simpl in H.
  - exists [], []. piece.
  - destruct (cls c) eqn:Hc.
    + destruct (greedy cls k (acc ++ [c]) s) as [y|] eqn:Hg.
      * injection H as <-. destruct (IH _ _ Hg) as (r & s' & -> & Hr & Hk).
        exists (c :: r), s'. piece.
      * exists [], (c :: s). piece.
    + exists [], (c :: s). piece.
Qed.

Lemma greedy_complete cls k (s : jsstring) :
  forall acc,
    greedy cls k acc s = None ->
    forall r s', s = r ++ s' -> Forall (fun c => cls c = true) r ->
                 k (acc ++ r) s' = None.
Proof.
  induction s as [|c s IH]; intros acc H r s' Hs Hr; simpl in H.
  - symmetry in Hs. apply app_eq_nil in Hs as [-> ->].
    rewrite app_nil_r. exact H.
  - destruct r as [|c' r]; simpl in Hs.
    + subst s'. rewrite app_nil_r.
      destruct (cls c); [destruct (greedy _ _ _ _); [discriminate|]|]; exact H.
    + injection Hs as <- ->. apply Forall_cons in Hr as [Hc Hr].
      rewrite Hc in H.
      destruct (greedy cls k (acc ++ [c]) (r ++ s')) eqn:Hg; [discriminate|].
      specialize (IH _ Hg r s' eq_refl Hr).
      rewrite <- app_assoc in IH. exact IH.
Qed.

Lemma lazy_sound cls k (s : jsstring) :
  forall acc x,
    lazy cls k acc s = Some x ->
    exists r s', s = r ++ s' /\ Forall (fun c => cls c = true) r /\
                 k (acc ++ r) s' = Some x.
Proof.
  induction s as [|c s IH]; intros acc x H; simpl in H.
  - destruct (k acc []) eqn:Hk; [|discriminate].
    exists [], []. injection H as <-. piece.
  - destruct (k acc (c :: s)) eqn:Hk.
    + exists [], (c :: s). injection H as <-. piece.
    + destruct (cls c) eqn:Hc; [|discriminate].
      destruct (IH _ _ H) as (r & s' & -> & Hr & Hk').
      exists (c :: r), s'. piece.
Qed.

Lemma lazy_complete cls k (s : jsstring) :
  forall acc,
    lazy cls k acc s = None ->
    forall r s', s = r ++ s' -> Forall (fun c => cls c = true) r ->
                 k (acc ++ r) s' = None.
Proof.
  induction s as [|c s IH]; intros acc H r s' Hs Hr; simpl in H.
  - symmetry in Hs. apply app_eq_nil in Hs as [-> ->].
    rewrite app_nil_r. destruct (k acc []); [discriminate|reflexivity].
  - destruct (k acc (c :: s)) eqn:Hk; [discriminate|].
    destruct r as [|c' r]; simpl in Hs.
    + subst s'. rewrite app_nil_r. exact Hk.
    + injection Hs as <- ->. apply Forall_cons in Hr as [Hc Hr].
      rewrite Hc in H. specialize (IH _ H r s' eq_refl Hr).
      rewrite <- app_assoc in IH. exact IH.
Qed.

Lemma at_least_sound cls k (min : nat) :
  forall (s acc : jsstring) x,
    at_least cls min k acc s = Some x ->
    exists r s', s = r ++ s' /\ Forall (fun c => cls c = true) r /\
                 length r = min /\ k (acc ++ r) s' = Some x.
Proof.
  induction min as [|min IH]; intros s acc x H; simpl in H.
  - exists [], s. piece.
  - destruct s as [|c s]; [discriminate|].
    destruct (cls c) eqn:Hc; [|discriminate].
    destruct (IH _ _ _ H) as (r & s' & -> & Hr & <- & Hk).
    exists (c :: r), s'. piece.
Qed.

Lemma at_least_complete cls k (min : nat) :
  forall (s acc : jsstring),
    at_least cls min k acc s = None ->
    forall r s', s = r ++ s' -> Forall (fun c => cls c = true) r ->
                 length r = min -> k (acc ++ r) s' = None.
Proof.
  induction min as [|min IH]; intros s acc H r s' Hs Hr Hlen; simpl in H.
  - destruct r; [|discriminate]. simpl in Hs. subst. rewrite app_nil_r. exact H.
  - destruct r as [|c r]; [discriminate|]. simpl in Hs, Hlen. subst s.
    apply Forall_cons in Hr as [Hc Hr]. rewrite Hc in H.
    specialize (IH _ _ H r s' eq_refl Hr ltac:(lia)).
    rewrite <- app_assoc in IH. exact IH.
Qed.

Lemma rep_sound cls (min : nat) (q : quantifier) k (s : jsstring) x :
  rep cls min q k s = Some x ->
  exists r s', s = r ++ s' /\ Forall (fun c => cls c = true) r /\
               (min <= length r)%nat /\ k r s' = Some x.
Proof.
  unfold rep. intros H.
  apply at_least_sound in H as (r1 & s1 & -> & Hr1 & Hlen & H). simpl in H.
  assert (exists r2 s', s1 = r2 ++ s' /\ Forall (fun c => cls c = true) r2 /\
                        k (r1 ++ r2) s' = Some x) as (r2 & s' & -> & Hr2 & Hk).
  { destruct q; [apply greedy_sound | apply lazy_sound]; exact H. }
  exists (r1 ++ r2), s'. rewrite <- app_assoc, length_app.
  split; [reflexivity|]. split; [apply Forall_app; auto|]. split; [lia|exact Hk].
Qed.

Lemma rep_complete cls (min : nat) (q : quantifier) k (s : jsstring) :
  rep cls min q k s = None ->
  forall r s', s = r ++ s' -> Forall (fun c => cls c = true) r ->
               (min <= length r)%nat -> k r s' = None.
Proof.
  unfold rep. intros H r s' -> Hr Hlen.
  assert (Hsplit : r = take min r ++ drop min r) by (symmetry; apply take_drop).
  assert (Hr' := Hr). rewrite Hsplit in Hr'.
  apply Forall_app in Hr' as [Hr1 Hr2].
  assert (Hs : r ++ s' = take min r ++ (drop min r ++ s')).
  { rewrite app_assoc, <- Hsplit. reflexivity. }
  assert (Hlen1 : length (take min r) = min) by (rewrite length_take; lia).
  pose proof (at_least_complete _ _ _ _ _ H _ _ Hs Hr1 Hlen1) as H1.
  simpl in H1.
  assert (Hk : k (take min r ++ drop min r) s' = None).
  { destruct q.
    - exact (greedy_complete _ _ _ _ H1 _ _ eq_refl Hr2).
    - exact (lazy_complete _ _ _ _ H1 _ _ eq_refl Hr2). }
  rewrite <- Hsplit in Hk. exact Hk.
Qed.
End MatcherLemmas.

Lemma strip_prefix_Some (l : jsstring) :
  forall s s' : jsstring, strip_prefix l s = Some s' <-> s = l ++ s'.
Proof.
  induction l as [|a l IH]; intros s s'; simpl.
  - split; [intros [= ->]; reflexivity | intros ->; reflexivity].
  - destruct s as [|b s]; [split; discriminate|].
    destruct (N.eqb_spec a b) as [->|Hne].
    + rewrite IH. split; [intros ->; reflexivity | intros [= ->]; reflexivity].
    + split; [discriminate | intros [= -> _]; contradiction].
Qed.

Lemma match_here_sound (p : list atom) :
  forall (s : jsstring) (caps0 caps : list jsstring),
    match_here p s caps0 = Some caps ->
    exists w post new,
      s = w ++ post /\ matches p w new /\ caps = caps0 ++ new.
Proof.
  induction p as [|a p IH]; intros s caps0 caps H; simpl in H.
  - injection H as <-. exists [], s, []. rewrite app_nil_r.
    repeat split. constructor.
  - destruct a as [l|cls min q capture].
    + destruct (strip_prefix l s) as [s1|] eqn:Hl; [|discriminate].
      apply strip_prefix_Some in Hl as ->.
      destruct (IH _ _ _ H) as (w & post & new & -> & Hm & ->).
      exists (l ++ w), post, new. rewrite <- app_assoc.
      repeat split. constructor. exact Hm.
    + apply rep_sound in H as (r & s1 & -> & Hr & Hlen & H).
      destruct (IH _ _ _ H) as (w & post & new & -> & Hm & ->).
      exists (r ++ w), post, (if capture then r :: new else new).
      rewrite <- app_assoc. split; [reflexivity|]. split.
      * constructor; assumption.
      * destruct capture; [rewrite <- app_assoc|]; reflexivity.
Qed.

Lemma match_here_complete (p : list atom) :
  forall (s : jsstring) (caps0 : list jsstring),
    match_here p s caps0 = None ->
    forall w post new, s = w ++ post -> ~ matches p w new.
Proof.
  induction p as [|a p IH]; intros s caps0 H w post new Hs Hm; simpl in H.
  - discriminate.
  - inversion Hm as [|l p' w' caps' Hm'|cls min q capture p' r w' caps' Hr Hlen Hm'];
      subst.
    + rewrite <- app_assoc in H.
      rewrite (proj2 (strip_prefix_Some l _ (w' ++ post)) eq_refl) in H.
      exact (IH _ _ H w' post new eq_refl Hm').
    + rewrite <- app_assoc in H.
      pose proof (rep_complete _ _ _ _ _ H r (w' ++ post) eq_refl Hr Hlen) as Hk.
      simpl in Hk. exact (IH _ _ Hk w' post caps' eq_refl Hm').
Qed.

(** The engine finds a match exactly when the pattern occurs in the line,
    and the groups it returns are those of an occurrence. *)
Lemma exec_sound (p : list atom) (s : jsstring) :
  forall caps,
    exec p s = Some caps ->
    exists pre w post, s = pre ++ w ++ post /\ matches p w caps.
Proof.
  induction s as [|c s IH]; intros caps H; simpl in H.
  - destruct (match_here p [] []) as [m|] eqn:Hm; [|discriminate].
    injection H as <-.
    apply match_here_sound in Hm as (w & post & new & Hs & Hm & ->).
    exists [], w, post. auto.
  - destruct (match_here p (c :: s) []) as [m|] eqn:Hm.
    + injection H as <-.
      apply match_here_sound in Hm as (w & post & new & Hs & Hm & ->).
      exists [], w, post. auto.
    + destruct (IH _ H) as (pre & w & post & -> & Hw).
      exists (c :: pre), w, post. auto.
Qed.

Lemma exec_complete (p : list atom) (s : jsstring) :
  exec p s = None -> ~ occurs_in p s.
Proof.
  induction s as [|c s IH]; intros H (pre & w & post & caps & Hs & Hm);
    simpl in H.
  - destruct (match_here p [] []) eqn:Hh; [discriminate|].
    destruct pre; [|discriminate]. simpl in Hs.
    exact (match_here_complete _ _ _ Hh _ _ _ Hs Hm).
  - destruct (match_here p (c :: s) []) eqn:Hh; [discriminate|].
    destruct pre as [|c' pre]; simpl in Hs.
    + exact (match_here_complete _ _ _ Hh _ _ _ Hs Hm).
    + injection Hs as -> ->. apply (IH H). exists pre, w, post, caps. auto.
Qed.

Lemma exec_occurs (p : list atom) (s : jsstring) :
  occurs_in p s <-> exists caps, exec p s = Some caps.
Proof.
  split.
  - intros Hocc. destruct (exec p s) as [caps|] eqn:He; [eauto|].
    exfalso. exact (exec_complete _ _ He Hocc).
  - intros [caps He]. destruct (exec_sound _ _ _ He) as (pre & w & post & Hs & Hm).
    exists pre, w, post, caps. auto.
Qed.

(** A match of the marker pattern has four groups and the marker shape. *)
Lemma marker_match_shape (w : jsstring) (m : list jsstring) :
  matches markerRegex w m ->
  exists name la ln desc,
    m = [name; la; ln; desc] /\ marker_shape w name la ln desc.
Proof.
  unfold markerRegex. intros H.
  repeat match goal with
         | Hm : matches (_ :: _) _ _ |- _ => inversion Hm; clear Hm; subst
         | Hm : matches [] _ _ |- _ => inversion Hm; clear Hm; subst
         end.
  eexists _, _, _, _. split; [reflexivity|].
  unfold marker_shape. eexists _, _, _, _, _, _, _.
  rewrite app_nil_r. split; [reflexivity|].
  split; [repeat constructor; assumption|].
  repeat match goal with
         | Hl : (1 <= length ?r)%nat |- _ =>
             assert (r <> []) by (intros ->; simpl in Hl; lia); clear Hl
         end.
  repeat split; assumption.
Qed.

(** ** The scan *)

Lemma scan_line_place (places : list MapPlace) (line : jsstring) :
  scan_line places line = places ++ option_list (place_of_line line).
Proof.
  unfold scan_line, place_of_line.
  destruct (exec markerRegex line) as [m|]; simpl; [|rewrite app_nil_r; reflexivity].
  destruct (negb _ && negb _); simpl; [|rewrite app_nil_r]; reflexivity.
Qed.

Lemma scan_lines (lines : list jsstring) :
  forall places,
    fold_left scan_line lines places = places ++ omap place_of_line lines.
Proof.
  induction lines as [|line lines IH]; intros places; simpl.
  - rewrite app_nil_r. reflexivity.
  - rewrite IH, scan_line_place, <- app_assoc. f_equal.
    destruct (place_of_line line); reflexivity.
Qed.

Lemma place_of_line_Some (line : jsstring) (p : MapPlace) :
  place_of_line line = Some p <->
  exists m,
    exec markerRegex line = Some m /\
    isNaN (parseFloat (group m 2)) = false /\
    isNaN (parseFloat (group m 3)) = false /\
    p = mkPlace (trim (group m 1)) (parseFloat (group m 2))
                (parseFloat (group m 3)) (trim (group m 4)).
Proof.
  unfold place_of_line.
  destruct (exec markerRegex line) as [m|]; simpl.
  - destruct (isNaN (parseFloat (group m 2))) eqn:Hlat,
             (isNaN (parseFloat (group m 3))) eqn:Hlng; simpl;
      (split; [intros [= <-] | intros (m' & [= <-] & Hx & Hy & ->)]);
      try congruence.
    exists m. auto.
  - split; [discriminate | intros (m & Hm & _); discriminate].
Qed.

Lemma parsePlaces_not_NaN (text : jsstring) :
  Forall (fun p => isNaN (lat p) = false /\ isNaN (lng p) = false)
         (parsePlaces text).
Proof.
  unfold parsePlaces. rewrite scan_lines. simpl.
  apply Forall_forall. intros p Hp.
  apply list_elem_of_omap in Hp as (line & _ & Hline).
  apply place_of_line_Some in Hline as (m & _ & Hlat & Hlng & ->).
  split; assumption.
Qed.

(** C9 -- The places are found in one pass over the lines of the text, in
    the order of the lines, each line contributing at most one place.  A
    line contributes exactly when the pattern has a match in it and the
    second and third group of the match parse as numbers; the place then
    carries the trimmed first and fourth group and the two parsed numbers.
    The groups are the fields of an occurrence of
    MARKER: name | lat | lng | description in the line; the matcher finds
    a match exactly when there is such an occurrence; and a line that
    contributes nothing leaves the list of places as it was. *)
Theorem C9_marker_scan (text : jsstring) :
  parsePlaces text = omap place_of_line (split 10 text) /\
  forall line : jsstring,
    (forall p,
        place_of_line line = Some p <->
        exists m,
          exec markerRegex line = Some m /\
          isNaN (parseFloat (group m 2)) = false /\
          isNaN (parseFloat (group m 3)) = false /\
          p = mkPlace (trim (group m 1)) (parseFloat (group m 2))
                      (parseFloat (group m 3)) (trim (group m 4))) /\
    (forall m,
        exec markerRegex line = Some m ->
        exists pre w post name la ln desc,
          line = pre ++ w ++ post /\ matches markerRegex w m /\
          marker_shape w name la ln desc /\
          group m 1 = name /\ group m 2 = la /\ group m 3 = ln /\
          group m 4 = desc) /\
    (occurs_in markerRegex line <-> exists m, exec markerRegex line = Some m) /\
    (forall places, place_of_line line = None -> scan_line places line = places).
Proof.
  split.
  - unfold parsePlaces. rewrite scan_lines. reflexivity.
  - intros line. split; [apply place_of_line_Some|].
    split; [|split; [apply exec_occurs|]].
    + intros m Hm.
      destruct (exec_sound _ _ _ Hm) as (pre & w & post & Hline & Hw).
      destruct (marker_match_shape _ _ Hw) as (name & la & ln & desc & -> & Hshape).
      exists pre, w, post, name, la, ln, desc. repeat split; assumption.
    + intros places Hnone. rewrite scan_line_place, Hnone. apply app_nil_r.
Qed.

(** The example of the prompt between a summary and a malformed marker. *)
Lemma C9_marker_scan_witness :
  parsePlaces
    (js "Here are some places." ++ [10%N] ++
     js "MARKER: Central Station | 40.7128 | -74.0060 | Main accessible entrance on 42nd St." ++
     [10%N] ++ js "MARKER: Nowhere | . | - | no coordinates") =
  [mkPlace (js "Central Station")
           (Num (inject_Z 407128 * Qpower (10 # 1) (-4)))
           (Num (- (inject_Z 740060 * Qpower (10 # 1) (-4))))
           (js "Main accessible entrance on 42nd St.")].
Proof.
  rewrite (proj1 (C9_marker_scan _)). vm_compute. reflexivity.
Defined.

(** The match that counts is the one the engine returns, the leftmost one
    with the shortest name: when its coordinates are not numbers the line
    is passed over, even if a marker with good coordinates follows on the
    same line. *)
Lemma first_match_decides :
  place_of_line (js "MARKER: a | . | 1 | MARKER: b | 2 | 3 | d") = None /\
  exists p,
    place_of_line (js "see MARKER: b | 2 | 3 | d") = Some p /\
    title p = js "b" /\ description p = js "d".
Proof. split; [vm_compute; reflexivity|]. eexists. vm_compute. auto. Qed.

(** C10 -- [askForDirections] returns a result whatever the model call
    does.  When the [try] block raises, and so whenever the model call
    raises, the result is the fallback text with no places.  In every
    result the coordinates of every place are numbers, not [NaN]. *)
Theorem C10_askForDirections_never_throws
    (generateContent : Request -> result Response)
    (query : jsstring) (latitude longitude : number)
    (isWheelchairAccessible : bool) :
  exists r,
    askForDirections generateContent query latitude longitude
      isWheelchairAccessible = Ok r /\
    (forall e,
        askForDirections_body generateContent query latitude longitude
          isWheelchairAccessible = Throw e ->
        r = fallback) /\
    (forall e,
        generateContent
          (mkRequest query latitude longitude
             (if isWheelchairAccessible
              then js "Prioritize wheelchair accessible locations with ramps and wide entrances."
              else [])) = Throw e ->
        r = fallback) /\
    text fallback = js "Sorry, I couldn't fetch directions at this moment." /\
    places fallback = [] /\
    Forall (fun p => isNaN (lat p) = false /\ isNaN (lng p) = false) (places r).
Proof.
  unfold askForDirections, askForDirections_body.
  destruct (generateContent _) as [response|e0]; simpl.
  - eexists. split; [reflexivity|]. simpl.
    split; [discriminate|]. split; [discriminate|].
    split; [reflexivity|]. split; [reflexivity|].
    apply parsePlaces_not_NaN.
  - exists fallback. split; [reflexivity|]. repeat split. constructor.
Qed.

(** * Further properties of the output audio queue *)

Lemma enqueue_keeps_clock (b : AudioBuffer) (s : State) (c : nat) :
  clock (enqueueAndSchedule b s) c = clock s c.
Proof.
  unfold enqueueAndSchedule. destruct (outputAudioContext s); reflexivity.
Qed.




(** X2 -- A message that carries audio and the interrupted flag: the
    segment is scheduled and stopped within the same call.  The call
    returns, no handle stays registered, the cursor is the clock and not
    the end of the segment, and the new source has an empty playback
    interval. *)
Theorem audio_with_interrupt_is_never_heard (strict_stop : bool) (s : State)
    (c : nat) (b : AudioBuffer) :
  outputAudioContext s = Some c ->
  exists s',
    handleMessage strict_stop (mkMessage (Some b) true) s = Ok s' /\
    audioSources s' = ∅ /\
    nextStartTime s' = clock s c /\
    exists n,
      sources s' !! length (sources s) = Some n /\
      buffer n = b /\
      playback_end (contexts s') n <= startWhen n.
Proof.
  intros Hc. unfold handleMessage. cbn [audioData interrupted].
  set (s1 := enqueueAndSchedule b s).
  destruct (stopAudioOutput_returns strict_stop s1) as (srcs' & Hret & Hlook).
  pose proof (enqueue_connected b s c Hc) as Hs1. fold s1 in Hs1.
  rewrite Hret. eexists. split; [reflexivity|]. cbn [audioSources nextStartTime sources contexts].
  split; [reflexivity|]. split.
  { rewrite Hs1. cbn [outputAudioContext]. rewrite <- Hs1.
    apply enqueue_keeps_clock. }
  set (n0 := mkSource c b (Qmax (nextStartTime s) (clock s c)) None).
  assert (Hn0 : sources s1 !! length (sources s) = Some n0)
    by apply (enqueue_new_source b s c Hc).
  assert (Hin : length (sources s) ∈ audioSources s1).
  { rewrite Hs1. cbn [audioSources]. apply elem_of_union_l, elem_of_singleton.
    reflexivity. }
  exists (after_stop (contexts s1) n0). split; [|split].
  - rewrite Hlook, decide_True, Hn0 by exact Hin. reflexivity.
  - unfold after_stop. destruct (finished _ n0); reflexivity.
  - rewrite after_stop_startWhen.
    pose proof (after_stop_finished (contexts s1) n0) as Hdone.
    apply finished_iff in Hdone. rewrite after_stop_context in Hdone.
    assert (Hctxs : contexts s1 = contexts s) by (rewrite Hs1; reflexivity).
    rewrite Hctxs in *.
    change (context n0) with c in Hdone.
    change (startWhen n0) with (Qmax (nextStartTime s) (clock s c)).
    fold (clock s c) in Hdone. q_minmax.
Qed.

Lemma audio_with_interrupt_is_never_heard_witness :
  exists s',
    handleMessage true (mkMessage (Some (mkBuffer 3)) true)
      (tick 0 10 (connect init)) = Ok s' /\
    audioSources s' = ∅ /\ nextStartTime s' = 10.
Proof.
  destruct (audio_with_interrupt_is_never_heard true (tick 0 10 (connect init))
              0%nat (mkBuffer 3) eq_refl) as (s' & Hm & Hset & Hcur & _).
  exists s'. repeat split; assumption.
Defined.

(** X3 -- An interruption right after an interruption changes nothing:
    the second call returns the state the first one left. *)
Theorem interrupt_twice_is_interrupt_once (strict_stop : bool) (s : State) :
  exists s',
    stopAudioOutput strict_stop s = Ok s' /\
    stopAudioOutput strict_stop s' = Ok s'.
Proof.
  destruct (stopAudioOutput_returns strict_stop s) as (srcs' & Hret & _).
  eexists. split; [exact Hret|].
  unfold stopAudioOutput. cbn [audioSources sources contexts outputAudioContext nextStartTime].
  rewrite elements_empty. cbn [forEach_stop bind].
  destruct (outputAudioContext s); reflexivity.
Qed.

(** ** Two more invariants of the reachable states *)

Lemma clock_connect_nonneg (s : State) (c : nat) :
  0 <= clock s c -> 0 <= clock (connect s) c.
Proof.
  unfold clock, connect, context_of. cbn [contexts]. intros H.
  destruct (decide (c < length (contexts s))%nat) as [Hlt|Hge].
  - rewrite lookup_app_l by exact Hlt. exact H.
  - rewrite lookup_app_r by lia.
    destruct (c - length (contexts s))%nat as [|k]; simpl; [lra|].
    destruct k; simpl; lra.
Qed.

Lemma apply_nonnegative (strict_stop : bool) (e : event) (s : State) :
  enabled s e -> nonnegative_times s -> nonnegative_times (apply strict_stop e s).
Proof.
  intros Hen (Hcur & Hclk & Hsrc).
  destruct e as [|m| |c dt|h]; cbn [apply].
  - split; [exact Hcur|]. split; [|exact Hsrc].
    intros c. apply clock_connect_nonneg, Hclk.
  - unfold handleMessage. cbn [enabled] in Hen.
    assert (H1 : nonnegative_times
              match audioData m with
              | Some audioBuffer => enqueueAndSchedule audioBuffer s
              | None => s
              end).
    { destruct (audioData m) as [b|]; [|repeat split; assumption].
      unfold valid_buffer in Hen.
      destruct (outputAudioContext s) as [c|] eqn:Hc;
        [|rewrite enqueue_unconnected by exact Hc; repeat split; assumption].
      rewrite (enqueue_connected b s c Hc).
      pose proof (Hclk c) as Hc0.
      split; [cbn [nextStartTime]; q_minmax|]. split; [exact Hclk|].
      cbn [sources]. intros i n [[_ Hn]|[_ <-]]%lookup_snoc_Some;
        [eapply Hsrc, Hn|]. cbn [startWhen]. q_minmax. }
    destruct (interrupted m); [|exact H1].
    set (s1 := match audioData m with
               | Some audioBuffer => enqueueAndSchedule audioBuffer s
               | None => s
               end) in *.
    destruct H1 as (Hcur1 & Hclk1 & Hsrc1).
    destruct (stopAudioOutput_returns strict_stop s1) as (srcs' & Hret & Hlook).
    rewrite Hret. cbn [settle_state].
    split; [cbn [nextStartTime]; destruct (outputAudioContext s1); auto|].
    split; [exact Hclk1|]. cbn [sources]. intros i n Hn. rewrite Hlook in Hn.
    destruct (decide (i ∈ audioSources s1)); [|eapply Hsrc1, Hn].
    destruct (sources s1 !! i) as [n1|] eqn:Hn1; [|discriminate].
    injection Hn as <-. rewrite after_stop_startWhen. eapply Hsrc1, Hn1.
  - destruct (disconnect s) as [s'|err] eqn:Hd; cbn [settle_state];
      [|repeat split; assumption].
    unfold disconnect in Hd. destruct (outputAudioContext s) as [c|].
    + unfold context_close in Hd.
      destruct (closed (context_of (contexts s) c)); [discriminate|].
      injection Hd as <-. split; [cbn [nextStartTime]; lra|].
      split; [|exact Hsrc]. intros k. unfold clock. cbn [contexts].
      rewrite context_of_insert. case_decide; [apply (Hclk c) | apply (Hclk k)].
    + injection Hd as <-. split; [cbn [nextStartTime]; lra|].
      split; [exact Hclk | exact Hsrc].
  - cbn [enabled] in Hen.
    destruct (tick_keeps_queue c dt s) as (Hq1 & _ & _ & Hq4).
    split; [rewrite Hq1; exact Hcur|]. split; [|rewrite Hq4; exact Hsrc].
    intros k. destruct (tick_context_of c dt s k Hen) as (_ & Hle & _).
    pose proof (Hclk k) as Hk. unfold clock in *. lra.
  - repeat split; assumption.
Qed.

(** X4 -- In every reachable state the cursor, every clock and the start
    time of every source are non-negative: [start] is never handed a
    negative time. *)
Theorem start_times_are_never_negative (strict_stop : bool) (s : State) :
  reachable strict_stop s ->
  0 <= nextStartTime s /\
  (forall c, 0 <= clock s c) /\
  (forall i n, sources s !! i = Some n -> 0 <= startWhen n).
Proof.
  induction 1 as [|s e Hreach IH Hen].
  - split; [apply Qle_refl|]. split.
    + intros c. apply Qle_refl.
    + intros i n H. discriminate.
  - exact (apply_nonnegative strict_stop e s Hen IH).
Qed.

Lemma start_times_are_never_negative_witness :
  0 <= nextStartTime
         (run true [Connect; Tick 0 10;
                    Message (mkMessage (Some (mkBuffer 1)) true);
                    Disconnect; Connect] init).
Proof.
  refine (proj1 (start_times_are_never_negative true _ _)).
  apply run_reachable; [apply reachable_init|].
  simpl. unfold valid_buffer. simpl. repeat split; lra.
Defined.

Lemma stopAudioOutput_keeps_length (strict_stop : bool) (s s' : State) :
  stopAudioOutput strict_stop s = Ok s' ->
  length (sources s') = length (sources s) /\ audioSources s' = ∅.
Proof.
  unfold stopAudioOutput. rewrite forEach_stop_fold. cbn [bind]. intros [= <-].
  cbn [sources audioSources]. split; [|reflexivity].
  generalize (sources s).
  induction (elements (audioSources s)) as [|h hs IH]; intros srcs; [reflexivity|].
  cbn [foldl]. rewrite IH. apply length_alter.
Qed.

Lemma apply_handles_registered (strict_stop : bool) (e : event) (s : State) :
  handles_registered s -> handles_registered (apply strict_stop e s).
Proof.
  intros Hreg. destruct e as [|m| |c dt|h]; cbn [apply].
  - exact Hreg.
  - unfold handleMessage.
    assert (H1 : handles_registered
              match audioData m with
              | Some audioBuffer => enqueueAndSchedule audioBuffer s
              | None => s
              end).
    { destruct (audioData m) as [b|]; [|exact Hreg].
      unfold enqueueAndSchedule. destruct (outputAudioContext s); [|exact Hreg].
      intros h. cbn [audioSources sources]. rewrite length_app. cbn [length].
      intros Hin. apply elem_of_union in Hin as [Hin|Hin].
      - apply elem_of_singleton in Hin as ->. lia.
      - specialize (Hreg h Hin). lia. }
    destruct (interrupted m); [|exact H1].
    destruct (stopAudioOutput strict_stop _) as [s'|err] eqn:Hstop;
      cbn [settle_state]; [|exact Hreg].
    apply stopAudioOutput_keeps_length in Hstop as [_ Hset].
    intros h Hin. rewrite Hset in Hin. apply not_elem_of_empty in Hin. contradiction.
  - destruct (disconnect s) as [s'|err] eqn:Hd; cbn [settle_state]; [|exact Hreg].
    unfold disconnect in Hd. destruct (outputAudioContext s).
    + destruct (context_close _); [|discriminate]. injection Hd as <-. exact Hreg.
    + injection Hd as <-. exact Hreg.
  - destruct (tick_keeps_queue c dt s) as (_ & Hq2 & _ & Hq4).
    intros h. rewrite Hq2, Hq4. apply Hreg.
  - intros k [Hin _]%elem_of_difference. apply Hreg, Hin.
Qed.

(** X5 -- In every reachable state every registered handle is the handle
    of a source, so the handle a new segment gets is not yet registered
    and registering it makes the set one larger. *)
Theorem registered_handles_are_sources (strict_stop : bool) (s : State) :
  reachable strict_stop s ->
  (forall h, h ∈ audioSources s -> exists n, sources s !! h = Some n) /\
  (forall b c,
      outputAudioContext s = Some c ->
      (length (sources s) ∉ audioSources s) /\
      size (audioSources (enqueueAndSchedule b s)) = S (size (audioSources s))).
Proof.
  intros Hreach.
  assert (Hreg : handles_registered s).
  { induction Hreach as [|s e Hreach IH Hen].
    - intros h Hin. apply not_elem_of_empty in Hin. contradiction.
    - apply apply_handles_registered, IH. }
  split.
  - intros h Hin. apply lookup_lt_is_Some_2, Hreg, Hin.
  - intros b c Hc.
    assert (Hfresh : length (sources s) ∉ audioSources s).
    { intros Hin. specialize (Hreg _ Hin). lia. }
    split; [exact Hfresh|].
    rewrite (enqueue_connected b s c Hc). cbn [audioSources].
    rewrite size_union by (apply disjoint_singleton_l; exact Hfresh).
    rewrite size_singleton. reflexivity.
Qed.

Lemma registered_handles_are_sources_witness :
  let s := run false [Connect; Message (mkMessage (Some (mkBuffer 1)) false);
                      Message (mkMessage (Some (mkBuffer 1)) false)] init in
  size (audioSources (enqueueAndSchedule (mkBuffer 1) s)) =
    S (size (audioSources s)).
Proof.
  intros s.
  assert (Hreach : reachable false s).
  { apply run_reachable; [apply reachable_init|].
    simpl. unfold valid_buffer. simpl. repeat split; lra. }
  exact (proj2 (proj2 (registered_handles_are_sources false s Hreach)
                  (mkBuffer 1) 0%nat eq_refl)).
Defined.

(** X6 -- In a reachable state a source that has not finished is still
    registered, so an interruption reaches it: after [stopAudioOutput]
    every source ever created is finished. *)
Theorem interrupt_silences_every_source (strict_stop : bool) (s s' : State) :
  reachable strict_stop s ->
  stopAudioOutput strict_stop s = Ok s' ->
  (forall i n, sources s !! i = Some n -> finished (contexts s) n = false ->
               i ∈ audioSources s) /\
  (forall i n, sources s' !! i = Some n -> finished (contexts s') n = true).
Proof.
  intros Hreach Hstop.
  destruct (reachable_invariant strict_stop s Hreach) as (_ & _ & _ & Hfin).
  split.
  - intros i n Hn Hrun. destruct (decide (i ∈ audioSources s)) as [Hin|Hout];
      [exact Hin|]. rewrite (Hfin i n Hn Hout) in Hrun. discriminate.
  - destruct (stopAudioOutput_returns strict_stop s) as (srcs' & Hret & Hlook).
    rewrite Hret in Hstop. injection Hstop as <-. cbn [sources contexts].
    intros i n Hn. rewrite Hlook in Hn.
    destruct (decide (i ∈ audioSources s)) as [Hin|Hout].
    + destruct (sources s !! i) as [n1|]; [|discriminate].
      injection Hn as <-. apply after_stop_finished.
    + eapply Hfin; eassumption.
Qed.

Lemma interrupt_silences_every_source_witness :
  let s := run true [Connect; Tick 0 10;
                     Message (mkMessage (Some (mkBuffer 1)) false);
                     Message (mkMessage (Some (mkBuffer 2)) false);
                     Tick 0 (3 # 2); Ended 0] init in
  exists s',
    stopAudioOutput true s = Ok s' /\
    forall i n, sources s' !! i = Some n -> finished (contexts s') n = true.
Proof.
  intros s.
  assert (Hreach : reachable true s).
  { apply run_reachable; [apply reachable_init|].
    simpl. unfold valid_buffer. simpl. repeat split; try lra.
    eexists. split; reflexivity. }
  destruct (stopAudioOutput_returns true s) as (srcs' & Hret & _).
  eexists. split; [exact Hret|].
  exact (proj2 (interrupt_silences_every_source true s _ Hreach Hret)).
Defined.

(** ** Sessions one after the other *)


Lemma connect_clock_new (s : State) :
  context_of (contexts (connect s)) (length (contexts s)) = new_context.
Proof.
  unfold connect, context_of. cbn [contexts].
  rewrite lookup_app_r by lia. rewrite Nat.sub_diag. reflexivity.
Qed.




(** X8 -- A segment that arrives between [disconnect] and the next
    [connect] is carried over: the cursor it leaves is not reset by
    [connect], so the first segment of the new session starts at the old
    clock's last value plus the late segment's duration, while the new
    context's clock reads 0. *)
Theorem late_segment_delays_next_session (s : State) (c : nat)
    (late first : AudioBuffer) :
  outputAudioContext s = Some c ->
  closed (context_of (contexts s) c) = false ->
  0 <= clock s c ->
  valid_buffer late ->
  exists s1,
    disconnect s = Ok s1 /\
    let s3 := connect (enqueueAndSchedule late s1) in
    let c' := length (contexts s) in
    outputAudioContext s3 = Some c' /\
    clock s3 c' == 0 /\
    exists n,
      sources (enqueueAndSchedule first s3) !! length (sources s3) = Some n /\
      context n = c' /\
      startWhen n == clock s c + duration late.
Proof.
  intros Hc Hopen Hclk Hlate. unfold valid_buffer in Hlate.
  unfold disconnect, context_close. rewrite Hc, Hopen. cbn [bind].
  eexists. split; [reflexivity|].
  set (s1 := mkState 0 (audioSources s) (Some c)
               (<[c := mkContext (currentTime (context_of (contexts s) c)) true]>
                  (contexts s)) (sources s)).
  assert (Hsame : clock s1 c = clock s c).
  { unfold clock, s1. cbn [contexts]. rewrite context_of_insert.
    case_decide; reflexivity. }
  pose proof (enqueue_connected late s1 c eq_refl) as Hs2.
  set (s2 := enqueueAndSchedule late s1) in *.
  assert (Hlen : length (contexts s2) = length (contexts s)).
  { rewrite Hs2. unfold s1. cbn [contexts]. apply length_insert. }
  cbv zeta. rewrite <- Hlen.
  assert (Hc3 : outputAudioContext (connect s2) = Some (length (contexts s2)))
    by reflexivity.
  split; [exact Hc3|]. split.
  { unfold clock. rewrite connect_clock_new. reflexivity. }
  eexists. split; [apply (enqueue_new_source first (connect s2) _ Hc3)|].
  cbn [context startWhen]. split; [reflexivity|].
  unfold clock at 1. rewrite connect_clock_new.
  cbn [connect nextStartTime currentTime new_context].
  rewrite Hs2. cbn [nextStartTime]. rewrite Hsame.
  change (nextStartTime s1) with 0. q_minmax.
Qed.

Lemma late_segment_delays_next_session_witness :
  let s := tick 0 10 (connect init) in
  exists s1,
    disconnect s = Ok s1 /\
    exists n,
      sources (enqueueAndSchedule (mkBuffer 1)
                 (connect (enqueueAndSchedule (mkBuffer 2) s1)))
        !! 1%nat = Some n /\
      startWhen n == 12.
Proof.
  intros s.
  assert (Hclk : 0 <= clock s 0) by (vm_compute; discriminate).
  assert (Hlate : valid_buffer (mkBuffer 2)) by (vm_compute; discriminate).
  destruct (late_segment_delays_next_session s 0%nat (mkBuffer 2) (mkBuffer 1)
              eq_refl eq_refl Hclk Hlate)
    as (s1 & Hd & _ & _ & n & Hn & _ & Hstart).
  exists s1. split; [exact Hd|]. exists n. split; [|exact Hstart].
  injection Hd as <-. exact Hn.
Defined.

(** X9 -- A second [disconnect] without a [connect] in between is
    rejected by [close] and leaves the queue as it is. *)
Theorem second_disconnect_is_rejected (strict_stop : bool) (s s1 : State) (c : nat) :
  outputAudioContext s = Some c ->
  (c < length (contexts s))%nat ->
  disconnect s = Ok s1 ->
  disconnect s1 = Throw InvalidStateError /\
  apply strict_stop Disconnect s1 = s1.
Proof.
  intros Hc Hlt Hd.
  assert (H1 : disconnect s1 = Throw InvalidStateError).
  { unfold disconnect in Hd. rewrite Hc in Hd. unfold context_close in Hd.
    destruct (closed (context_of (contexts s) c)); [discriminate|].
    injection Hd as <-.
    apply (disconnect_closed _ c); [reflexivity|].
    cbn [contexts]. rewrite context_of_insert, decide_True by auto. reflexivity. }
  split; [exact H1|]. cbn [apply]. rewrite H1. reflexivity.
Qed.

Lemma second_disconnect_is_rejected_witness :
  disconnect (mkState 0 ∅ (Some 0%nat) [mkContext 10 true] []) =
    Throw InvalidStateError.
Proof.
  refine (proj1 (second_disconnect_is_rejected true (tick 0 10 (connect init))
                   _ 0%nat eq_refl _ eq_refl)).
  simpl. lia.
Defined.

(** * Properties of the transcript overlay and of the session clock *)

Import App.

Lemma slice_last_length {A} (k : nat) (l : list A) :
  length (slice_last k l) = Nat.min k (length l).
Proof. unfold slice_last. rewrite length_drop. lia. Qed.

Lemma slice_last_snoc {A} (k : nat) (l : list A) (x : A) :
  slice_last k (slice_last (S k) l) ++ [x] = slice_last (S k) (l ++ [x]).
Proof.
  unfold slice_last. rewrite length_drop, drop_drop, length_app. cbn [length].
  rewrite drop_app_le by lia. f_equal. f_equal. lia.
Qed.

Lemma onTranscription_window (calls : list Transcription) :
  fold_left onTranscription calls [] = slice_last 5 calls.
Proof.
  induction calls as [|t calls IH] using rev_ind; [reflexivity|].
  rewrite fold_left_app. cbn [fold_left]. rewrite IH.
  unfold onTranscription. apply slice_last_snoc.
Qed.

Lemma transcription_calls_texts (m : ServerTranscripts) :
  Forall (fun t => transcript_text t <> []) (transcription_calls m).
Proof.
  unfold transcription_calls.
  destruct (outputTranscription m) as [[|c t]|], (inputTranscription m) as [[|c' t']|];
    repeat constructor; discriminate.
Qed.

(** X10 -- The overlay always shows the last five transcriptions of the
    session, or all of them while there are fewer, in the order in which
    [handleMessage] reported them (the model's words before the user's
    within one message); it never holds more than five entries and never
    an empty text. *)
Theorem overlay_shows_last_five (ms : list ServerTranscripts) :
  overlay ms = slice_last 5 (ms ≫= transcription_calls) /\
  (length (overlay ms) <= 5)%nat /\
  Forall (fun t => transcript_text t <> []) (overlay ms) /\
  forall m : ServerTranscripts,
    overlay (ms ++ [m]) =
      fold_left onTranscription (transcription_calls m) (overlay ms).
Proof.
  unfold overlay. rewrite onTranscription_window.
  split; [reflexivity|]. split; [rewrite slice_last_length; lia|]. split.
  - unfold slice_last. apply Forall_drop.
    induction ms as [|m ms IH]; [constructor|].
    cbn [mbind list_bind]. apply Forall_app. split; [apply transcription_calls_texts|].
    exact IH.
  - intros m. rewrite <- onTranscription_window.
    rewrite bind_app, fold_left_app. cbn [mbind list_bind]. rewrite app_nil_r.
    reflexivity.
Qed.

(** ** formatTime *)










(** * Further properties of the marker scan *)

(** ** Character classes *)

Ltac class_facts :=
  unfold is_coord_char, is_space, is_white_space, is_line_terminator,
    is_dot, is_digit in *;
  repeat match goal with
         | H : _ = true |- _ =>
             first [ apply Bool.orb_true_iff in H as [H|H]
                   | apply Bool.andb_true_iff in H as [? ?]
                   | apply N.eqb_eq in H
                   | apply N.leb_le in H
                   | apply Bool.negb_true_iff in H ]
         | H : _ = false |- _ =>
             first [ apply Bool.orb_false_iff in H as [? ?]
                   | apply N.eqb_neq in H ]
         end.

Lemma coord_char_not_space (c : N) :
  is_coord_char c = true -> is_space c = false.
Proof.
  intros H. apply Bool.not_true_is_false. intros Hs.
  class_facts; lia.
Qed.

Lemma space_not_coord_char (c : N) :
  is_space c = true -> is_coord_char c = false.
Proof.
  intros H. apply Bool.not_true_is_false. intros Hs.
  class_facts; lia.
Qed.

Lemma bar_classes :
  is_space 124 = false /\ is_coord_char 124 = false /\ is_dot 124 = true.
Proof. repeat split. Qed.

(** ** The matcher when no backtracking is needed *)

Section Priority.
Context {R : Type}.
Implicit Types (cls : N -> bool) (k : jsstring -> jsstring -> option R).

(** A greedy run that takes all there is and whose continuation then
    succeeds is the first alternative tried. *)
Lemma greedy_takes_run cls k (r : jsstring) :
  forall (acc s' : jsstring) x,
    Forall (fun c => cls c = true) r ->
    stops_at cls s' ->
    k (acc ++ r) s' = Some x ->
    greedy cls k acc (r ++ s') = Some x.
Proof.
  induction r as [|c r IH]; intros acc s' x Hr Hstop Hk.
  - rewrite app_nil_r in Hk. destruct s' as [|c t]; [exact Hk|].
    cbn [app greedy]. rewrite (Hstop c t eq_refl). exact Hk.
  - apply Forall_cons in Hr as [Hc Hr]. cbn [app greedy]. rewrite Hc.
    rewrite (IH (acc ++ [c]) s' x Hr Hstop); [reflexivity|].
    rewrite <- app_assoc. exact Hk.
Qed.

(** A lazy run stops at the shortest length at which the continuation
    succeeds. *)
Lemma lazy_takes_shortest cls k (r : jsstring) :
  forall (acc s' : jsstring) x,
    Forall (fun c => cls c = true) r ->
    (forall r1 r2, r = r1 ++ r2 -> r2 <> [] -> k (acc ++ r1) (r2 ++ s') = None) ->
    k (acc ++ r) s' = Some x ->
    lazy cls k acc (r ++ s') = Some x.
Proof.
  induction r as [|c r IH]; intros acc s' x Hr Hshort Hk.
  - rewrite app_nil_r in Hk. destruct s'; cbn [app lazy]; rewrite Hk; reflexivity.
  - apply Forall_cons in Hr as [Hc Hr]. cbn [app lazy].
    pose proof (Hshort [] (c :: r) eq_refl ltac:(discriminate)) as H0.
    rewrite app_nil_r in H0. cbn [app] in H0. rewrite H0, Hc.
    apply IH; [exact Hr| |rewrite <- app_assoc; exact Hk].
    intros r1 r2 -> Hr2. rewrite <- app_assoc. apply (Hshort (c :: r1) r2); auto.
Qed.
End Priority.

Lemma match_lit (l : jsstring) (p : list atom) (s : jsstring)
    (caps x : list jsstring) :
  match_here p s caps = Some x ->
  match_here (Lit l :: p) (l ++ s) caps = Some x.
Proof.
  intros H. cbn [match_here].
  rewrite (proj2 (strip_prefix_Some l (l ++ s) s) eq_refl). exact H.
Qed.

Lemma match_spaces (p : list atom) (r s : jsstring) (caps x : list jsstring) :
  Forall (fun c => is_space c = true) r ->
  stops_at is_space s ->
  match_here p s caps = Some x ->
  match_here (Rep is_space 0 Greedy false :: p) (r ++ s) caps = Some x.
Proof.
  intros Hr Hstop H. cbn [match_here]. unfold rep. cbn [at_least].
  apply greedy_takes_run; assumption.
Qed.

Lemma match_coord (p : list atom) (r s : jsstring) (caps x : list jsstring) :
  r <> [] ->
  Forall (fun c => is_coord_char c = true) r ->
  stops_at is_coord_char s ->
  match_here p s (caps ++ [r]) = Some x ->
  match_here (Rep is_coord_char 1 Greedy true :: p) (r ++ s) caps = Some x.
Proof.
  intros Hne Hr Hstop H. destruct r as [|c r]; [contradiction|].
  apply Forall_cons in Hr as [Hc Hr].
  cbn [match_here app]. unfold rep. cbn [at_least]. rewrite Hc.
  apply greedy_takes_run; assumption.
Qed.

Lemma match_name (p : list atom) (c : N) (r s : jsstring)
    (caps x : list jsstring) :
  Forall (fun c => is_dot c = true) (c :: r) ->
  (forall r1 r2, r = r1 ++ r2 -> r2 <> [] ->
                 match_here p (r2 ++ s) (caps ++ [c :: r1]) = None) ->
  match_here p s (caps ++ [c :: r]) = Some x ->
  match_here (Rep is_dot 1 Lazy true :: p) ((c :: r) ++ s) caps = Some x.
Proof.
  intros Hr Hshort H. apply Forall_cons in Hr as [Hc Hr].
  cbn [match_here app]. unfold rep. cbn [at_least]. rewrite Hc.
  apply lazy_takes_shortest; assumption.
Qed.

Lemma match_rest_of_line (r : jsstring) (caps : list jsstring) :
  Forall (fun c => is_dot c = true) r ->
  match_here [Rep is_dot 0 Greedy true] r caps = Some (caps ++ [r]).
Proof.
  intros Hr. cbn [match_here]. unfold rep. cbn [at_least].
  rewrite <- (app_nil_r r) at 1.
  apply greedy_takes_run; [exact Hr|intros c t; discriminate|reflexivity].
Qed.

Lemma exec_at_start (p : list atom) (s : jsstring) (caps : list jsstring) :
  match_here p s [] = Some caps -> exec p s = Some caps.
Proof. intros H. destruct s; cbn [exec]; rewrite H; reflexivity. Qed.

(** After optional white space the pattern wants a bar. *)
Lemma bar_after_spaces (p : list atom) (s : jsstring) (caps x : list jsstring) :
  match_here (Rep is_space 0 Greedy false :: Lit (js "|") :: p) s caps = Some x ->
  exists sp t, s = sp ++ 124%N :: t /\ Forall (fun c => is_space c = true) sp.
Proof.
  intros H. apply match_here_sound in H as (w & post & new & -> & Hm & _).
  inversion Hm as [| |cls min q capture p' sp w' caps' Hsp _ Hm']; subst.
  inversion Hm' as [|l p' w'' caps'' Hm''|]; subst.
  exists sp, (w'' ++ post). split; [|exact Hsp].
  rewrite <- !app_assoc. reflexivity.
Qed.

Lemma no_bar_inside (r2 s sp t : jsstring) (c : N) :
  r2 ++ s = sp ++ 124%N :: t ->
  Forall (fun c => is_space c = true) sp ->
  124%N ∉ r2 ->
  last r2 = Some c -> is_space c = false ->
  False.
Proof.
  intros Heq Hsp Hbar Hlast Hc.
  assert (Hin : c ∈ r2) by (apply last_Some_elem_of; exact Hlast).
  apply app_eq_inv in Heq as [(k & -> & Hk)|(k & -> & Hk)].
  - destruct k as [|c' k].
    + rewrite app_nil_r in Hin.
      rewrite Forall_forall in Hsp. rewrite (Hsp c Hin) in Hc. discriminate.
    + injection Hk as <- _. apply Hbar. apply elem_of_app. right. left.
  - rewrite Forall_forall in Hsp.
    rewrite (Hsp c) in Hc; [discriminate|]. apply elem_of_app. left. exact Hin.
Qed.

(** ** White space around the fields *)

Lemma take_drop_while (f : N -> bool) (s : jsstring) :
  take_while f s ++ drop_while f s = s /\
  Forall (fun c => f c = true) (take_while f s) /\
  stops_at f (drop_while f s).
Proof.
  induction s as [|c s (IH1 & IH2 & IH3)]; cbn [take_while drop_while].
  - repeat split; [constructor|intros c t; discriminate].
  - destruct (f c) eqn:Hc.
    + cbn [app]. rewrite IH1. repeat split; [constructor; assumption|exact IH3].
    + repeat split; [constructor|]. intros c' t [= <- _]. exact Hc.
Qed.

Lemma drop_while_stops (f : N -> bool) (s : jsstring) :
  stops_at f s -> drop_while f s = s.
Proof.
  intros H. destruct s as [|c t]; [reflexivity|].
  cbn [drop_while]. rewrite (H c t eq_refl). reflexivity.
Qed.

Lemma trim_drop_while (s : jsstring) : trim (drop_while is_space s) = trim s.
Proof.
  unfold trim. rewrite (drop_while_stops is_space (drop_while is_space s));
    [reflexivity|]. apply take_drop_while.
Qed.

Lemma trim_trimmed (s : jsstring) :
  (forall c, head s = Some c -> is_space c = false) ->
  (forall c, last s = Some c -> is_space c = false) ->
  trim s = s.
Proof.
  intros Hhead Hlast. unfold trim.
  rewrite (drop_while_stops is_space s).
  - rewrite (drop_while_stops is_space (rev s)); [apply rev_involutive|].
    intros c t Hrev. apply Hlast.
    rewrite <- (rev_involutive s), Hrev. cbn [rev]. apply last_snoc.
  - intros c t ->. apply Hhead. reflexivity.
Qed.

(** ** A line in the requested format *)

Lemma stops_at_head (cls : N -> bool) (a rest : jsstring) :
  a <> [] ->
  (forall c, head a = Some c -> cls c = false) ->
  stops_at cls (a ++ rest).
Proof.
  intros Hne Hhead c t Heq. destruct a as [|c0 a]; [contradiction|].
  injection Heq as <- _. apply Hhead. reflexivity.
Qed.

Lemma stops_at_bar (cls : N -> bool) (rest : jsstring) :
  cls 124%N = false -> stops_at cls (js "|" ++ rest).
Proof. intros H c t [= <- _]. exact H. Qed.

Lemma stops_at_spaces_bar (sp rest : jsstring) :
  Forall (fun c => is_space c = true) sp ->
  stops_at is_coord_char (sp ++ js "|" ++ rest).
Proof.
  intros Hsp c t Heq. destruct sp as [|c0 sp].
  - injection Heq as <- _. reflexivity.
  - injection Heq as <- _. apply Forall_cons in Hsp as [Hc _].
    apply space_not_coord_char, Hc.
Qed.

Lemma coord_head_not_space (a : jsstring) :
  Forall (fun c => is_coord_char c = true) a ->
  forall c, head a = Some c -> is_space c = false.
Proof.
  intros Ha c Hc. destruct a as [|c0 a]; [discriminate|].
  injection Hc as <-. apply Forall_cons in Ha as [Hc0 _].
  apply coord_char_not_space, Hc0.
Qed.

(** The groups the engine returns on a line in the marker shape whose
    name has no bar and no white space at either end. *)
Lemma marker_line_groups (w name la ln desc : jsstring) :
  marker_shape w name la ln desc ->
  124%N ∉ name ->
  (forall c, head name = Some c -> is_space c = false) ->
  (forall c, last name = Some c -> is_space c = false) ->
  exec markerRegex w = Some [name; la; ln; drop_while is_space desc].
Proof.
  intros (s0 & s1 & s2 & s3 & s4 & s5 & s6 & -> & Hsp & Hname & Hdots &
          Hla & Hlac & Hln & Hlnc & Hdesc) Hbar Hhead Hlast.
  repeat match goal with
         | H : Forall _ (_ :: _) |- _ => apply Forall_cons in H as [? H]
         end.
  apply exec_at_start. unfold markerRegex.
  apply match_lit.
  apply match_spaces; [assumption|apply stops_at_head; assumption|].
  destruct name as [|c name]; [contradiction|].
  apply match_name; [exact Hdots| |].
  { intros r1 r2 -> Hr2.
    destruct (match_here _ (r2 ++ _) _) as [x|] eqn:Hm; [exfalso|reflexivity].
    apply bar_after_spaces in Hm as (sp & t & Heq & Hspaces).
    destruct (last r2) as [c2|] eqn:Hl2;
      [|apply last_None in Hl2; contradiction].
    apply (no_bar_inside r2 _ sp t c2 Heq Hspaces).
    - intros Hin. apply Hbar. right. apply elem_of_app. right. exact Hin.
    - exact Hl2.
    - apply Hlast. change (c :: r1 ++ r2) with ((c :: r1) ++ r2).
      rewrite last_app, Hl2. reflexivity. }
  apply match_spaces; [assumption|apply stops_at_bar; reflexivity|].
  apply match_lit.
  apply match_spaces;
    [assumption|apply stops_at_head; [assumption|apply coord_head_not_space; assumption]|].
  apply match_coord; [assumption|assumption|apply stops_at_spaces_bar; assumption|].
  apply match_spaces; [assumption|apply stops_at_bar; reflexivity|].
  apply match_lit.
  apply match_spaces;
    [assumption|apply stops_at_head; [assumption|apply coord_head_not_space; assumption]|].
  apply match_coord; [assumption|assumption|apply stops_at_spaces_bar; assumption|].
  apply match_spaces; [assumption|apply stops_at_bar; reflexivity|].
  apply match_lit.
  destruct (take_drop_while is_space desc) as (Hsplit & Htake & Hstop).
  rewrite <- Hsplit at 1. rewrite app_assoc.
  apply match_spaces; [apply Forall_app; split; assumption|exact Hstop|].
  apply match_rest_of_line.
  rewrite <- Hsplit in Hdesc. apply Forall_app in Hdesc as [_ Hd]. exact Hd.
Qed.

(** X12 -- A line written in the format the prompt asks for,
    MARKER: name | lat | lng | description with any white space around
    the fields, whose name has no bar and whose coordinates parse, yields
    exactly the place with that name, the two parsed numbers and the
    trimmed description, whatever was collected before the line. *)
Theorem marker_line_round_trip (w name la ln desc : jsstring)
    (found : list MapPlace) :
  marker_shape w name la ln desc ->
  124%N ∉ name ->
  (forall c, head name = Some c -> is_space c = false) ->
  (forall c, last name = Some c -> is_space c = false) ->
  isNaN (parseFloat la) = false ->
  isNaN (parseFloat ln) = false ->
  place_of_line w =
    Some (mkPlace name (parseFloat la) (parseFloat ln) (trim desc)) /\
  scan_line found w =
    found ++ [mkPlace name (parseFloat la) (parseFloat ln) (trim desc)].
Proof.
  intros Hshape Hbar Hhead Hlast Hlat Hlng.
  pose proof (marker_line_groups w name la ln desc Hshape Hbar Hhead Hlast) as Hexec.
  assert (Hplace : place_of_line w =
            Some (mkPlace name (parseFloat la) (parseFloat ln) (trim desc))).
  { apply place_of_line_Some.
    exists [name; la; ln; drop_while is_space desc].
    split; [exact Hexec|]. split; [exact Hlat|]. split; [exact Hlng|].
    rewrite <- (trim_trimmed name Hhead Hlast) at 1.
    rewrite <- (trim_drop_while desc). reflexivity. }
  split; [exact Hplace|]. rewrite scan_line_place, Hplace. reflexivity.
Qed.

Lemma marker_line_round_trip_witness :
  place_of_line
    (js "MARKER: Central Station | 40.7128 | -74.0060 | Main accessible entrance on 42nd St.") =
  Some (mkPlace (js "Central Station") (parseFloat (js "40.7128"))
          (parseFloat (js "-74.0060"))
          (trim (js "Main accessible entrance on 42nd St."))).
Proof.
  refine (proj1 (marker_line_round_trip _ (js "Central Station") (js "40.7128")
                   (js "-74.0060") (js "Main accessible entrance on 42nd St.")
                   [] _ _ _ _ _ _)).
  - exists (js " "), (js " "), (js " "), (js " "), (js " "), (js " "), (js " ").
    split; [reflexivity|].
    split; [repeat constructor|].
    split; [discriminate|]. split; [vm_compute; repeat constructor|].
    split; [discriminate|]. split; [vm_compute; repeat constructor|].
    split; [discriminate|]. split; [vm_compute; repeat constructor|].
    vm_compute. repeat constructor.
  - intros H. apply list_elem_of_In in H. vm_compute in H.
    intuition discriminate.
  - intros c [= <-]. reflexivity.
  - intros c [= <-]. reflexivity.
  - reflexivity.
  - reflexivity.
Defined.

(** * Properties of the route planner's view *)

Import Navigation.

(** ** Text before the first marker *)

Lemma split_first_nil (sep : jsstring) : split_first sep [] = [].
Proof. destruct sep; reflexivity. Qed.

Lemma split_first_cons (sep : jsstring) (c : N) (s : jsstring) :
  split_first sep (c :: s) =
    match strip_prefix sep (c :: s) with
    | Some _ => []
    | None => c :: split_first sep s
    end.
Proof. reflexivity. Qed.

Lemma split_first_decompose (sep s : jsstring) :
  exists rest,
    s = split_first sep s ++ rest /\
    (rest = [] \/ exists t, rest = sep ++ t).
Proof.
  induction s as [|c s (rest & Hs & Hrest)].
  - rewrite split_first_nil. exists []. split; [reflexivity|]. left. reflexivity.
  - rewrite split_first_cons.
    destruct (strip_prefix sep (c :: s)) as [t|] eqn:Hp.
    + apply strip_prefix_Some in Hp. exists (c :: s). split; [reflexivity|].
      right. exists t. exact Hp.
    + exists rest. split; [cbn [app]; f_equal; exact Hs | exact Hrest].
Qed.

(** The text kept is cut at the first occurrence at the latest. *)
Lemma split_first_short (sep pre post : jsstring) :
  (length (split_first sep (pre ++ sep ++ post)) <= length pre)%nat.
Proof.
  induction pre as [|c pre IH]; cbn [app].
  - assert (Hp : strip_prefix sep (sep ++ post) = Some post)
      by (apply strip_prefix_Some; reflexivity).
    destruct (sep ++ post) as [|c t].
    + rewrite split_first_nil. cbn. lia.
    + rewrite split_first_cons, Hp. cbn. lia.
  - rewrite split_first_cons. destruct (strip_prefix sep _); cbn [length]; lia.
Qed.

Lemma split_first_idem (sep s : jsstring) :
  split_first sep (split_first sep s) = split_first sep s.
Proof.
  induction s as [|c s IH].
  - rewrite !split_first_nil. reflexivity.
  - rewrite split_first_cons.
    destruct (strip_prefix sep (c :: s)) as [t|] eqn:Hp;
      [apply split_first_nil|].
    rewrite split_first_cons.
    destruct (strip_prefix sep (c :: split_first sep s)) as [t|] eqn:Hq;
      [|rewrite IH; reflexivity].
    apply strip_prefix_Some in Hq.
    destruct (split_first_decompose sep s) as (rest & Hs & _).
    assert (Hcs : c :: s = sep ++ (t ++ rest)).
    { rewrite app_assoc, <- Hq. cbn [app]. f_equal. exact Hs. }
    apply strip_prefix_Some in Hcs. congruence.
Qed.

Lemma split_first_free (sep s : jsstring) :
  sep <> [] -> ~ contains sep (split_first sep s).
Proof.
  intros Hsep (pre & post & Heq).
  pose proof (split_first_short sep pre post) as Hshort.
  rewrite <- Heq, split_first_idem, Heq in Hshort.
  rewrite !length_app in Hshort.
  destruct sep; [contradiction|]. cbn [length] in Hshort. lia.
Qed.

Lemma split_first_all (sep s : jsstring) :
  ~ contains sep s -> split_first sep s = s.
Proof.
  intros Hno. destruct (split_first_decompose sep s) as (rest & Hs & [->|[t ->]]).
  - rewrite app_nil_r in Hs. symmetry. exact Hs.
  - exfalso. apply Hno. exists (split_first sep s), t. exact Hs.
Qed.

Lemma contains_by_split_first (sep s : jsstring) :
  sep <> [] -> split_first sep s = s -> ~ contains sep s.
Proof.
  intros Hsep Heq Hc. rewrite <- Heq in Hc.
  exact (split_first_free sep s Hsep Hc).
Qed.

(** ** Lines without the literal *)

(** Every line of a text is a piece of it. *)
Lemma line_of_split (sep : N) (s : jsstring) :
  (exists l ls b, JS.split sep s = l :: ls /\ s = l ++ b) /\
  (forall line, line ∈ JS.split sep s -> exists a b, s = a ++ line ++ b).
Proof.
  induction s as [|c s ((l & ls & b & Hsplit & Hs) & IH)]; cbn [JS.split].
  - split; [exists [], [], []; auto|].
    intros line Hin. apply list_elem_of_singleton in Hin as ->.
    exists [], []. reflexivity.
  - rewrite Hsplit in *. destruct (c =? sep)%N.
    + split; [exists [], (l :: ls), (c :: s); auto|].
      intros line Hin. apply elem_of_cons in Hin as [->|Hin].
      * exists [], (c :: s). reflexivity.
      * destruct (IH line Hin) as (a & b' & Ha). exists (c :: a), b'.
        cbn [app]. f_equal. exact Ha.
    + split; [exists (c :: l), ls, b; split; [reflexivity|cbn [app]; f_equal; exact Hs]|].
      intros line Hin. apply elem_of_cons in Hin as [->|Hin].
      * exists [], b. cbn [app]. f_equal. exact Hs.
      * destruct (IH line ltac:(right; exact Hin)) as (a & b' & Ha).
        exists (c :: a), b'. cbn [app]. f_equal. exact Ha.
Qed.

Lemma contains_piece (sep a line b : jsstring) :
  contains sep line -> contains sep (a ++ line ++ b).
Proof.
  intros (pre & post & ->). exists (a ++ pre), (post ++ b).
  rewrite <- !app_assoc. reflexivity.
Qed.

Lemma place_line_has_literal (line : jsstring) (p : MapPlace) :
  place_of_line line = Some p -> contains (js "MARKER:") line.
Proof.
  intros Hp. apply place_of_line_Some in Hp as (m & Hm & _).
  apply exec_sound in Hm as (pre & w & post & -> & Hw).
  apply marker_match_shape in Hw as (name & la & ln & desc & _ & Hshape).
  destruct Hshape as (s0 & s1 & s2 & s3 & s4 & s5 & s6 & -> & _).
  exists pre. eexists. rewrite <- !app_assoc. reflexivity.
Qed.

Lemma no_literal_no_places (text : jsstring) :
  ~ contains (js "MARKER:") text -> parsePlaces text = [].
Proof.
  intros Hno. unfold parsePlaces. rewrite scan_lines. cbn [app].
  destruct (omap place_of_line (JS.split 10 text)) as [|p ps] eqn:Hps; [reflexivity|].
  exfalso. assert (Hin : p ∈ omap place_of_line (JS.split 10 text))
    by (rewrite Hps; left).
  apply list_elem_of_omap in Hin as (line & Hline & Hp).
  apply Hno. destruct (proj2 (line_of_split 10 text) line Hline) as (a & b & ->).
  apply contains_piece. eapply place_line_has_literal, Hp.
Qed.

(** X13 -- A text in which the literal MARKER: does not occur yields no
    place at all, and so does every line without it in any text. *)
Theorem text_without_marker_has_no_places (text : jsstring) :
  ~ contains (js "MARKER:") text ->
  parsePlaces text = [] /\
  (forall line found, line ∈ JS.split 10 text -> scan_line found line = found).
Proof.
  intros Hno. split; [apply no_literal_no_places, Hno|].
  intros line found Hline. rewrite scan_line_place.
  destruct (place_of_line line) as [p|] eqn:Hp; [|apply app_nil_r].
  exfalso. apply Hno.
  destruct (proj2 (line_of_split 10 text) line Hline) as (a & b & ->).
  apply contains_piece. eapply place_line_has_literal, Hp.
Qed.

Lemma text_without_marker_has_no_places_witness :
  parsePlaces (js "I found some information.") = [].
Proof.
  refine (proj1 (text_without_marker_has_no_places _ _)).
  apply contains_by_split_first; [discriminate|]. vm_compute. reflexivity.
Defined.

(** X14 -- The summary paragraph is the answer up to its first MARKER:
    the answer is the summary followed by nothing or by a text that starts
    with MARKER:.  The literal does not occur in the summary, no place can
    be read from it, and an answer without the literal is shown whole. *)
Theorem summary_stops_before_first_marker (r : MapResult) :
  (exists rest,
      text r = summary r ++ rest /\
      (rest = [] \/ exists t, rest = js "MARKER:" ++ t)) /\
  ~ contains (js "MARKER:") (summary r) /\
  parsePlaces (summary r) = [] /\
  (~ contains (js "MARKER:") (text r) -> summary r = text r).
Proof.
  unfold summary.
  assert (Hfree : ~ contains (js "MARKER:") (split_first (js "MARKER:") (text r)))
    by (apply split_first_free; discriminate).
  split; [apply split_first_decompose|]. split; [exact Hfree|].
  split; [apply no_literal_no_places, Hfree | apply split_first_all].
Qed.

(** ** The search *)

Lemma askForDirections_returns (generateContent : Request -> result Response)
    (q : jsstring) (la lo : number) (acc : bool) :
  exists data, askForDirections generateContent q la lo acc = Ok data.
Proof.
  unfold askForDirections, askForDirections_body.
  destruct (generateContent _); cbn [bind try_catch]; eauto.
Qed.

(** X15 -- A search with a blank query changes nothing.  Any other search
    ends with the spinner off, whatever the geolocation and the model call
    do: with a position, the result of [askForDirections] for the query and
    the accessibility choice as they were at the click is shown and, when
    there is a map, the user's marker is at the position; with a
    geolocation error no result is shown and the marker is left alone. *)
Theorem search_always_settles (generateContent : Request -> result Response)
    (geo : GeoOutcome) (st : NavState) :
  exists st',
    handleSearch generateContent geo st = Ok st' /\
    query st' = query st /\ isAccessible st' = isAccessible st /\
    match trim (query st) with
    | [] => st' = st
    | _ :: _ =>
        loading st' = false /\
        match geo with
        | GeoPosition latitude longitude =>
            (exists data,
                askForDirections generateContent (query st) latitude longitude
                  (isAccessible st) = Ok data /\
                searchResult st' = Some data) /\
            userMarker st' =
              (if mapReady st then Some (latitude, longitude) else userMarker st)
        | GeoError =>
            searchResult st' = None /\ userMarker st' = userMarker st
        end
    end.
Proof.
  unfold handleSearch. destruct (trim (query st)) as [|c t].
  - exists st. repeat split.
  - destruct geo as [la lo|].
    + destruct (askForDirections_returns generateContent (query st) la lo
                  (isAccessible st)) as (data & Hdata).
      rewrite Hdata. cbn [bind]. eexists. split; [reflexivity|].
      unfold updateUserLocation. cbn [mapReady].
      destruct (mapReady st) eqn:Hmap; cbn; rewrite ?Hmap; repeat split; eauto.
    + eexists. split; [reflexivity|]. cbn. repeat split.
Qed.

(** * The coordinate guard and the independence of lines *)

Lemma split_not_nil (sep : N) (s : jsstring) : JS.split sep s <> [].
Proof.
  destruct s as [|c s]; cbn [JS.split]; [discriminate|].
  destruct (c =? sep)%N; [discriminate|].
  destruct (JS.split sep s); discriminate.
Qed.

Lemma split_app_sep (sep : N) (a b : jsstring) :
  JS.split sep (a ++ sep :: b) = JS.split sep a ++ JS.split sep b.
Proof.
  induction a as [|c a IH]; cbn [app JS.split].
  - rewrite N.eqb_refl. reflexivity.
  - destruct (c =? sep)%N; [rewrite IH; reflexivity|].
    rewrite IH. pose proof (split_not_nil sep a) as Hne.
    destruct (JS.split sep a) as [|l ls]; [contradiction|]. reflexivity.
Qed.

(** X16 -- Lines are scanned independently of one another: the places of
    two texts joined by a line break are the places of the first followed
    by the places of the second. *)
Theorem places_of_joined_texts (a b : jsstring) :
  parsePlaces (a ++ [10%N] ++ b) = parsePlaces a ++ parsePlaces b.
Proof.
  unfold parsePlaces. rewrite !scan_lines. cbn [app].
  rewrite split_app_sep. apply omap_app.
Qed.

Lemma take_while_digit_head (d : N) (r : jsstring) :
  is_digit d = true -> take_while is_digit (d :: r) <> [].
Proof. intros H. cbn [take_while]. rewrite H. discriminate. Qed.

Lemma parseFloat_unsigned (neg : bool) (s2 : jsstring) :
  Forall (fun c => is_coord_char c = true) s2 ->
  isNaN
    match strip_prefix (js "Infinity") s2 with
    | Some _ => Infinity neg
    | None =>
        let ip := take_while is_digit s2 in
        let s3 := drop_while is_digit s2 in
        let '(fp, s4) :=
          match s3 with
          | c :: r =>
              if (c =? 46)%N then (take_while is_digit r, drop_while is_digit r)
              else ([], s3)
          | [] => ([], s3)
          end in
        match ip ++ fp with
        | [] => NaN
        | ds =>
            let m := inject_Z (Z.of_N (digits_value ds)) in
            let e := (exponent_of s4 - Z.of_nat (length fp))%Z in
            let v := (m * Qpower (10 # 1) e)%Q in
            Num (if neg then (- v)%Q else v)
        end
    end =
  negb match s2 with
       | d :: r =>
           is_digit d ||
           ((d =? 46)%N && match r with
                           | e :: _ => is_digit e
                           | [] => false
                           end)
       | [] => false
       end.
Proof.
  intros Hc. destruct s2 as [|d r]; [reflexivity|].
  apply Forall_cons in Hc as [Hd Hr].
  assert (Hinf : strip_prefix (js "Infinity") (d :: r) = None).
  { change (js "Infinity") with (73%N :: js "nfinity"). cbn [strip_prefix].
    destruct (N.eqb_spec 73 d) as [<-|_]; [discriminate Hd|reflexivity]. }
  rewrite Hinf. cbv zeta. cbn [take_while drop_while].
  destruct (is_digit d) eqn:Hdig.
  - cbn [orb negb].
    destruct (match drop_while is_digit r with
              | c :: r0 =>
                  if (c =? 46)%N
                  then (take_while is_digit r0, drop_while is_digit r0)
                  else ([], drop_while is_digit r)
              | [] => ([], drop_while is_digit r)
              end) as [fp s4].
    reflexivity.
  - cbn [orb]. destruct (d =? 46)%N eqn:Hdot; cbn [andb].
    + destruct r as [|e r']; [reflexivity|].
      cbn [take_while drop_while]. destruct (is_digit e); reflexivity.
    + reflexivity.
Qed.

(** X17 -- What the guard of lines 67-71 lets through.  A field made of
    digits, dots and minus signs, as the second and third group are, is a
    number for [parseFloat] exactly when, after an optional minus sign, it
    starts with a digit or with a dot followed by a digit. *)
Theorem coordinate_guard (field : jsstring) :
  Forall (fun c => is_coord_char c = true) field ->
  isNaN (parseFloat field) = negb (starts_number field).
Proof.
  intros Hc. destruct field as [|c r]; [reflexivity|].
  pose proof Hc as Hc'. apply Forall_cons in Hc' as [Hc1 Hr].
  unfold parseFloat, starts_number.
  rewrite (drop_while_stops is_space (c :: r))
    by (intros c0 t [= <- _]; apply coord_char_not_space, Hc1).
  destruct (c =? 45)%N eqn:Hminus.
  - apply (parseFloat_unsigned true r Hr).
  - assert (Hplus : (c =? 43)%N = false).
    { apply N.eqb_neq. intros ->. discriminate Hc1. }
    rewrite Hplus. apply (parseFloat_unsigned false (c :: r) Hc).
Qed.

Lemma coordinate_guard_witness :
  isNaN (parseFloat (js "-.")) = true /\ isNaN (parseFloat (js "1-2")) = false.
Proof.
  split.
  - refine (coordinate_guard (js "-.") _). vm_compute. repeat constructor.
  - refine (coordinate_guard (js "1-2") _). vm_compute. repeat constructor.
Defined.

(** * Markers on the map *)

Lemma push_markers (ps : list MapPlace) :
  forall acc : list Marker,
    fold_left (fun markers place => markers ++ [marker_of place]) ps acc =
      acc ++ (marker_of <$> ps).
Proof.
  induction ps as [|p ps IH]; intros acc; cbn [fold_left fmap list_fmap].
  - rewrite app_nil_r. reflexivity.
  - rewrite IH, <- app_assoc. reflexivity.
Qed.

Lemma askForDirections_places (generateContent : Request -> result Response)
    (q : jsstring) (la lo : number) (acc : bool) (data : MapResult) :
  askForDirections generateContent q la lo acc = Ok data ->
  Forall (fun p => isNaN (lat p) = false /\ isNaN (lng p) = false) (places data).
Proof.
  unfold askForDirections, askForDirections_body.
  destruct (generateContent _); cbn [bind try_catch]; intros [= <-];
    cbn [places]; [apply parsePlaces_not_NaN | constructor].
Qed.

(** X18 -- After a search that got a position, on a component with a map,
    the markers kept for the places are one per place of the result, in
    the order of the list shown, so that entry number [idx] of the list
    opens the popup of its own place; whatever markers were there before
    are gone; and no marker stands at a [NaN] coordinate. *)
Theorem markers_follow_places (generateContent : Request -> result Response)
    (st st' : NavState) (latitude longitude : number) (old : list Marker) :
  trim (query st) <> [] ->
  handleSearch generateContent (GeoPosition latitude longitude) st = Ok st' ->
  exists data,
    searchResult st' = Some data /\
    let markers := updateMarkers true (searchResult st') old in
    markers = marker_of <$> places data /\
    (forall idx, markers !! idx = marker_of <$> places data !! idx) /\
    Forall (fun m => isNaN (fst (position m)) = false /\
                     isNaN (snd (position m)) = false) markers.
Proof.
  intros Hq Hs. unfold handleSearch in Hs.
  destruct (trim (query st)) as [|c t]; [contradiction|].
  destruct (askForDirections generateContent (query st) latitude longitude
              (isAccessible st)) as [data|err] eqn:Hdata;
    cbn [bind] in Hs; [|discriminate].
  injection Hs as <-. exists data. cbn [searchResult]. split; [reflexivity|].
  assert (Hm : updateMarkers true (Some data) old = marker_of <$> places data).
  { unfold updateMarkers. destruct (places data) as [|p ps] eqn:Hp; [reflexivity|].
    apply push_markers. }
  cbv zeta. rewrite Hm. split; [reflexivity|]. split.
  - intros idx. apply list_lookup_fmap.
  - apply Forall_fmap.
    eapply Forall_impl; [eapply askForDirections_places, Hdata|].
    intros p Hp. exact Hp.
Qed.

Lemma markers_follow_places_witness :
  let reply := fun _ : Request =>
    Ok (mkResponse (Some (js "MARKER: Cafe | 1.5 | -2 | ramp at the door"))) in
  let st := mkNav (js "coffee") None false true true None in
  exists st' data,
    handleSearch reply (GeoPosition (Num 1) (Num 2)) st = Ok st' /\
    searchResult st' = Some data /\
    updateMarkers true (searchResult st') [] = marker_of <$> places data.
Proof.
  intros reply st.
  assert (Hq : trim (query st) <> []) by (vm_compute; discriminate).
  destruct (markers_follow_places reply st _ (Num 1) (Num 2) [] Hq eq_refl)
    as (data & Hres & Hmarkers & _).
  eexists _, data. split; [reflexivity|]. split; [exact Hres | exact Hmarkers].
Defined.
